(** * EulerCircuit2netlist: the path interpreter of [converter.py]

    A shallow embedding of [parse_connections], of
    [generate_spice_netlist] and of the nets, ports and cells of
    [generate_netlistsvg_json], with the properties of the
    path-to-connection inference and of the two generators proved
    about it.

    Python values are modelled as the interpreter has them:
    - a [str] is a sequence of Unicode code points ([list N]);
    - a [dict] is an association list in insertion order with unique keys;
    - a [defaultdict(dict)] inserts an empty inner dict on a missing key;
    - an exception is the [Raise] branch of [result]. *)

From Stdlib Require Import String Ascii.
From Stdlib Require Import NArith ZArith List Bool Lia.
From Stdlib Require Import Sorted Permutation.
Import ListNotations.

(** ** Python strings *)

Definition char := N.
Definition str := list char.

(** An ASCII literal of this file as a Python [str]. *)
Definition pystr (s : string) : str :=
  map N_of_ascii (list_ascii_of_string s).

Fixpoint str_eqb (a b : str) : bool :=
  match a, b with
  | [], [] => true
  | x :: a', y :: b' => N.eqb x y && str_eqb a' b'
  | _, _ => false
  end.

(** [a < b] on [str]: lexicographic on code points. *)
Fixpoint str_ltb (a b : str) : bool :=
  match a, b with
  | _, [] => false
  | [], _ :: _ => true
  | x :: a', y :: b' => N.ltb x y || (N.eqb x y && str_ltb a' b')
  end.

(** [str.isspace] on one code point: the whitespace set of CPython
    ([_Py_ascii_whitespace] and [_PyUnicode_IsWhitespace]). *)
Definition isspace (c : char) : bool :=
  ((9 <=? c) && (c <=? 13) || (28 <=? c) && (c <=? 32)
   || (c =? 133) || (c =? 160) || (c =? 5760)
   || (8192 <=? c) && (c <=? 8202)
   || (c =? 8232) || (c =? 8233) || (c =? 8239) || (c =? 8287)
   || (c =? 12288))%N.

Fixpoint lstrip (s : str) : str :=
  match s with
  | [] => []
  | c :: s' => if isspace c then lstrip s' else s
  end.

Definition rstrip (s : str) : str := rev (lstrip (rev s)).

(** [data.strip()] *)
Definition strip (s : str) : str := rstrip (lstrip s).

(** [s.split('->')]: cut at every occurrence of the two code points
    [-] (45) [>] (62), scanning from the left; the result is never
    empty. *)
Fixpoint split_arrow (s : str) : list str :=
  match s with
  | [] => [[]]
  | c :: s' =>
      let keep :=
        match split_arrow s' with
        | tok :: toks => (c :: tok) :: toks
        | [] => [[c]]
        end in
      match s' with
      | d :: s'' =>
          if (c =? 45)%N && (d =? 62)%N then [] :: split_arrow s'' else keep
      | [] => keep
      end
  end.

(** [s.startswith(p)], returning what follows [p]. *)
Fixpoint strip_prefix (p s : str) : option str :=
  match p, s with
  | [], _ => Some s
  | x :: p', y :: s' => if N.eqb x y then strip_prefix p' s' else None
  | _ :: _, [] => None
  end.

Definition startswith (s p : str) : bool :=
  match strip_prefix p s with Some _ => true | None => false end.

(** The longest prefix whose code points satisfy [f], and the rest. *)
Fixpoint span (f : char -> bool) (s : str) : str * str :=
  match s with
  | [] => ([], [])
  | c :: s' =>
      if f c then let (a, b) := span f s' in (c :: a, b) else ([], s)
  end.

(** ** Exceptions *)

Inductive exn := IndexError | AttributeError | ValueError.

Inductive result (A : Type) : Type :=
| Ok (a : A)
| Raise (e : exn).
Arguments Ok {A} a.
Arguments Raise {A} e.

Definition bind {A B} (r : result A) (k : A -> result B) : result B :=
  match r with
  | Ok a => k a
  | Raise e => Raise e
  end.

Notation "x <- r ;; k" := (bind r (fun x => k))
  (at level 61, r at next level, right associativity).

(** [l[i]] with Python's negative indices. *)
Definition py_index {A} (l : list A) (i : Z) : result A :=
  let n := Z.of_nat (length l) in
  let j := if (i <? 0)%Z then (i + n)%Z else i in
  if (j <? 0)%Z || (n <=? j)%Z then Raise IndexError
  else match nth_error l (Z.to_nat j) with
       | Some x => Ok x
       | None => Raise IndexError
       end.

(** ** Python dicts keyed by [str], in insertion order *)

Definition pydict (V : Type) := list (str * V).

Fixpoint dict_get {V} (d : pydict V) (k : str) : option V :=
  match d with
  | [] => None
  | (k', v) :: d' => if str_eqb k' k then Some v else dict_get d' k
  end.

(** [k in d] *)
Definition dict_mem {V} (d : pydict V) (k : str) : bool :=
  match dict_get d k with Some _ => true | None => false end.

(** [d[k] = v]: an existing key keeps its place, a new one goes last. *)
Fixpoint dict_set {V} (d : pydict V) (k : str) (v : V) : pydict V :=
  match d with
  | [] => [(k, v)]
  | (k', v') :: d' =>
      if str_eqb k' k then (k', v) :: d' else (k', v') :: dict_set d' k v
  end.

(** [d.keys()] *)
Definition dict_keys {V} (d : pydict V) : list str := map fst d.

(** [d.get(k, default)] *)
Definition dict_get_default {V} (d : pydict V) (k : str) (default : V) : V :=
  match dict_get d k with Some v => v | None => default end.

(** The connection map: component name to (terminal code to node name). *)
Definition components := pydict (pydict str).

(** [components[k]] on a [defaultdict(dict)]: a missing key is inserted
    with a fresh empty dict. *)
Definition defaultdict_getitem (cs : components) (k : str)
  : pydict str * components :=
  match dict_get cs k with
  | Some conns => (conns, cs)
  | None => ([], dict_set cs k [])
  end.

(** [[
    if term_type not in components[comp_name]:
        components[comp_name][term_type] = node
    ]]
    The inner dict is an object held by the outer one: the assignment
    is seen through [components]. *)
Definition record_first (cs : components) (comp_name term_type node : str)
  : components :=
  let (conns, cs1) := defaultdict_getitem cs comp_name in
  if dict_mem conns term_type then cs1
  else
    let (conns', cs2) := defaultdict_getitem cs1 comp_name in
    dict_set cs2 comp_name (dict_set conns' term_type node).

(** ** The interpreter's settings, as CPython 3.11 has them *)

(** The digit zero of each run of ten decimal digits (category Nd)
    above ASCII in Unicode 14.0. *)
Definition nd_zeros : list N :=
  [1632; 1776; 1984; 2406; 2534; 2662; 2790; 2918; 3046; 3174; 3302;
   3430; 3558; 3664; 3792; 3872; 4160; 4240; 6112; 6160; 6470; 6608;
   6784; 6800; 6992; 7088; 7232; 7248; 42528; 43216; 43264; 43472;
   43504; 43600; 44016; 65296; 66720; 68912; 69734; 69872; 69942;
   70096; 70384; 70736; 70864; 71248; 71360; 71472; 71904; 72016;
   72784; 73040; 73120; 92768; 92864; 93008; 120782; 120792; 120802;
   120812; 120822; 123200; 123632; 125264; 130032]%N.

Definition unicode_14_decimal (c : char) : option N :=
  match find (fun z => (z <=? c) && (c <? z + 10))%N nd_zeros with
  | Some z => Some (c - z)%N
  | None => None
  end.

(** The default of [sys.get_int_max_str_digits()]. *)
Definition default_max_str_digits : N := 4300.

Section Converter.

Set Default Proof Using "Type".

(** The interpreter's Unicode database on non-ASCII code points: the
    decimal value of a code point of category Nd ([\d] of [re] on
    [str] patterns and [int] both read it). *)
Variable unicode_decimal : char -> option N.

(** [sys.get_int_max_str_digits()]: 0 lifts the limit on [int(str)]. *)
Variable int_max_str_digits : N.

Definition todecimal (c : char) : option N :=
  if (c <? 128)%N then
    if (48 <=? c)%N && (c <=? 57)%N then Some (c - 48)%N else None
  else unicode_decimal c.

Definition isdecimal (c : char) : bool :=
  match todecimal c with Some _ => true | None => false end.

(** *** [terminal_regex = re.compile(r"^(NM|PM|R|C)(\d+)_([DGSBPN])$")] *)

Definition comp_types : list str :=
  [pystr "NM"; pystr "PM"; pystr "R"; pystr "C"].

(** [[DGSBPN]] *)
Definition terminal_letter (c : char) : bool :=
  existsb (N.eqb c) (pystr "DGSBPN").

(** [$] without [re.MULTILINE]: the end of the string, or just before
    a newline that ends it. *)
Definition at_end (s : str) : bool :=
  match s with
  | [] => true
  | [c] => (c =? 10)%N
  | _ => false
  end.

(** An alternation: the alternatives in order, the next one tried when
    the rest of the pattern fails after this one. *)
Fixpoint try_alts {R} (alts : list str) (s : str)
         (k : str -> str -> option R) : option R :=
  match alts with
  | [] => None
  | a :: alts' =>
      match strip_prefix a s with
      | Some rest =>
          match k a rest with
          | Some r => Some r
          | None => try_alts alts' s k
          end
      | None => try_alts alts' s k
      end
  end.

(** What follows the type code: [(\d+)_([DGSBPN])$].  [\d+] is greedy
    and what follows it is [_], not a digit, so giving digits back
    never helps: the group is the whole run of digits. *)
Definition id_and_terminal (comp_type rest : str)
  : option (str * str * str) :=
  let (comp_num, rest') := span isdecimal rest in
  match comp_num, rest' with
  | _ :: _, u :: t :: tail =>
      if (u =? 95)%N && terminal_letter t && at_end tail
      then Some (comp_type, comp_num, [t])
      else None
  | _, _ => None
  end.

(** [terminal_regex.match(part)], as [match.groups()] when it matches. *)
Definition terminal_regex (part : str) : option (str * str * str) :=
  try_alts comp_types part id_and_terminal.

(** *** [parse_connections] *)

(** [[
    other_match = terminal_regex.match(other)
    is_other_part_of_same_comp = False
    if other_match:
        if f"{other_match.group(1)}{other_match.group(2)}" == comp_name:
            is_other_part_of_same_comp = True
    ]] *)
Definition is_part_of_same_comp (other comp_name : str) : bool :=
  match terminal_regex other with
  | Some (ty, num, _) => str_eqb (ty ++ num) comp_name
  | None => false
  end.

(** One iteration of [for i, part in enumerate(path)]. *)
Definition visit (path : list str) (i : Z) (part : str) (cs : components)
  : result components :=
  match terminal_regex part with
  | None => Ok cs
  | Some (comp_type, comp_num, term_type) =>
      let comp_name := comp_type ++ comp_num in
      cs1 <-
        (if (i >? 0)%Z then
           prev_part <- py_index path (i - 1) ;;
           let is_prev_part_of_same_comp :=
             is_part_of_same_comp prev_part comp_name in
           if negb (str_eqb prev_part comp_name)
              && negb is_prev_part_of_same_comp
           then Ok (record_first cs comp_name term_type prev_part)
           else Ok cs
         else Ok cs) ;;
      if (i <? Z.of_nat (length path) - 1)%Z then
        next_part <- py_index path (i + 1) ;;
        let is_next_part_of_same_comp :=
          is_part_of_same_comp next_part comp_name in
        if negb (str_eqb next_part comp_name)
           && negb is_next_part_of_same_comp
        then Ok (record_first cs1 comp_name term_type next_part)
        else Ok cs1
      else Ok cs1
  end.

Fixpoint enumerate_loop (path : list str) (i : Z) (rest : list str)
         (cs : components) : result components :=
  match rest with
  | [] => Ok cs
  | part :: rest' =>
      cs' <- visit path i part cs ;;
      enumerate_loop path (i + 1) rest' cs'
  end.

Definition parse_path (path : list str) : result components :=
  enumerate_loop path 0 path [].

Definition parse_connections (data : str) : result components :=
  let path := split_arrow (strip data) in
  parse_path path.

(** *** The ordering of [generate_spice_netlist] and
    [generate_netlistsvg_json] *)

(** [int(s)] on a string of decimal digits (all that the sort key
    passes to it): the value, or [ValueError] past the interpreter's
    limit on the number of digits. *)
Fixpoint int_digits (acc : N) (s : str) : option N :=
  match s with
  | [] => Some acc
  | c :: s' =>
      match todecimal c with
      | Some d => int_digits (10 * acc + d) s'
      | None => None
      end
  end.

Definition py_int (s : str) : result Z :=
  if negb (int_max_str_digits =? 0)%N
     && (int_max_str_digits <? N.of_nat (length s))%N
  then Raise ValueError
  else
    match s with
    | [] => Raise ValueError
    | _ :: _ =>
        match int_digits 0 s with
        | Some n => Ok (Z.of_N n)
        | None => Raise ValueError
        end
    end.

(** [[A-Z]] *)
Definition upper_AZ (c : char) : bool := (65 <=? c)%N && (c <=? 90)%N.

(** [re.match(r"([A-Z]+)(\d+)", x)], as its two groups.  Both runs are
    greedy, and a letter given back by the first is not a digit: the
    groups are the two whole runs. *)
Definition name_regex (x : str) : option (str * str) :=
  let (letters, rest) := span upper_AZ x in
  let (digits, _) := span isdecimal rest in
  match letters, digits with
  | _ :: _, _ :: _ => Some (letters, digits)
  | _, _ => None
  end.

(** [[
    lambda x: (re.match(r"([A-Z]+)(\d+)", x).group(1),
               int(re.match(r"([A-Z]+)(\d+)", x).group(2)))
    ]]
    [.group] on [None] raises [AttributeError]. *)
Definition sort_key (x : str) : result (str * Z) :=
  match name_regex x with
  | None => Raise AttributeError
  | Some (g1, g2) => n <- py_int g2 ;; Ok (g1, n)
  end.

(** [a < b] on the key tuples. *)
Definition key_ltb (a b : str * Z) : bool :=
  str_ltb (fst a) (fst b)
  || (str_eqb (fst a) (fst b) && (snd a <? snd b)%Z).

(** [sorted(xs, key=...)] is stable: an element goes before the first
    one that is not smaller than it, so equal keys keep their order. *)
Fixpoint insert_by_key {A} (x : (str * Z) * A) (l : list ((str * Z) * A))
  : list ((str * Z) * A) :=
  match l with
  | [] => [x]
  | y :: l' =>
      if key_ltb (fst y) (fst x) then y :: insert_by_key x l' else x :: l
  end.

Fixpoint sort_by_key {A} (l : list ((str * Z) * A)) : list ((str * Z) * A) :=
  match l with
  | [] => []
  | x :: l' => insert_by_key x (sort_by_key l')
  end.

(** The keys are computed first, in order; the first failure raises. *)
Fixpoint with_keys (names : list str) : result (list ((str * Z) * str)) :=
  match names with
  | [] => Ok []
  | x :: names' =>
      k <- sort_key x ;;
      ks <- with_keys names' ;;
      Ok ((k, x) :: ks)
  end.

(** [sorted(components.keys(), key=lambda x: ...)] *)
Definition sorted_comp_names (cs : components) : result (list str) :=
  ks <- with_keys (dict_keys cs) ;;
  Ok (map snd (sort_by_key ks)).

Definition NC : str := pystr "NC".

(** [conns.get(t, 'NC')] *)
Definition conn (conns : pydict str) (t : string) : str :=
  dict_get_default conns (pystr t) NC.

(** The line a component adds to the netlist, if any. *)
Definition spice_line (name : str) (conns : pydict str) : list str :=
  let sp := pystr " " in
  if startswith name (pystr "NM") then
    [pystr "M" ++ skipn 2 name ++ sp ++ conn conns "D" ++ sp
     ++ conn conns "G" ++ sp ++ conn conns "S" ++ sp ++ conn conns "B"
     ++ pystr " nmos_model"]
  else if startswith name (pystr "PM") then
    [pystr "M" ++ skipn 2 name ++ sp ++ conn conns "D" ++ sp
     ++ conn conns "G" ++ sp ++ conn conns "S" ++ sp ++ conn conns "B"
     ++ pystr " pmos_model"]
  else if startswith name (pystr "R") then
    [pystr "R" ++ skipn 1 name ++ sp ++ conn conns "P" ++ sp
     ++ conn conns "N" ++ pystr " 1k"]
  else if startswith name (pystr "C") then
    [pystr "C" ++ skipn 1 name ++ sp ++ conn conns "P" ++ sp
     ++ conn conns "N" ++ pystr " 1p"]
  else [].

(** The list [netlist] before it is joined. *)
Definition spice_lines (cs : components) : result (list str) :=
  names <- sorted_comp_names cs ;;
  Ok ([pystr "* Generated SPICE netlist"]
      ++ flat_map
           (fun name => spice_line name (fst (defaultdict_getitem cs name)))
           names
      ++ [pystr ".END"]).

(** ["\n".join(netlist)] *)
Fixpoint join_lines (lines : list str) : str :=
  match lines with
  | [] => []
  | [l] => l
  | l :: lines' => l ++ 10%N :: join_lines lines'
  end.

Definition generate_spice_netlist (cs : components) : result str :=
  netlist <- spice_lines cs ;;
  Ok (join_lines netlist).

(** *** The cells of [generate_netlistsvg_json] *)

(** A set of strings, as the list of its elements. *)
Definition set_add (x : str) (s : list str) : list str :=
  if existsb (str_eqb x) s then s else s ++ [x].

(** [[
    nets = set()
    for comp, conns in components.items():
        for term, net in conns.items():
            nets.add(net)
    ]] *)
Definition nets_of (cs : components) : list str :=
  fold_left
    (fun nets kv => fold_left (fun nets tn => set_add (snd tn) nets) (snd kv) nets)
    cs [].

(** [sorted(list(nets))]: the elements are distinct, so their order in
    the set does not show. *)
Fixpoint insert_str (x : str) (l : list str) : list str :=
  match l with
  | [] => [x]
  | y :: l' => if str_ltb y x then y :: insert_str x l' else x :: l
  end.

Definition sorted_strs (l : list str) : list str := fold_right insert_str [] l.

Fixpoint enumerate_from (i : Z) (l : list str) : pydict Z :=
  match l with
  | [] => []
  | x :: l' => (x, i) :: enumerate_from (i + 1) l'
  end.

(** [{name: i for i, name in enumerate(sorted(list(nets)), 1)}] *)
Definition net_map (cs : components) : pydict Z :=
  enumerate_from 1 (sorted_strs (nets_of cs)).

Definition type_map : pydict str :=
  [(pystr "NM", pystr "nmos"); (pystr "PM", pystr "pmos");
   (pystr "R", pystr "resistor"); (pystr "C", pystr "capacitor")].

(** The leading run of capital letters:
    [re.match(r"([A-Z]+)", comp_name).group(1)] when it is not empty. *)
Definition comp_type_prefix (comp_name : str) : str :=
  fst (span upper_AZ comp_name).

(** The terminals of a component type. *)
Definition port_directions (comp_type_prefix : str) : pydict str :=
  if existsb (str_eqb comp_type_prefix) [pystr "NM"; pystr "PM"] then
    [(pystr "D", pystr "input"); (pystr "G", pystr "input");
     (pystr "S", pystr "input"); (pystr "B", pystr "input")]
  else if existsb (str_eqb comp_type_prefix) [pystr "R"; pystr "C"] then
    [(pystr "P", pystr "input"); (pystr "N", pystr "input")]
  else [].

(** [[
    for term, net in conns.items():
        if net in net_map:
            connections[term] = [net_map[net]]
    ]] *)
Definition connections_of (nm : pydict Z) (conns : pydict str)
  : pydict (list Z) :=
  fold_left
    (fun connections tn =>
       match dict_get nm (snd tn) with
       | Some i => dict_set connections (fst tn) [i]
       | None => connections
       end)
    conns [].

(** The dict [cell], by its three keys. *)
Record cell := {
  cell_type : str;
  cell_port_directions : pydict str;
  cell_connections : pydict (list Z)
}.

Definition make_cell (cs : components) (nm : pydict Z) (comp_name : str)
  : result cell :=
  let conns := fst (defaultdict_getitem cs comp_name) in
  match comp_type_prefix comp_name with
  | [] => Raise AttributeError
  | prefix =>
      Ok {| cell_type := dict_get_default type_map prefix (pystr "unknown");
            cell_port_directions := port_directions prefix;
            cell_connections := connections_of nm conns |}
  end.

(** [for comp_name in sorted_comp_names: ... cells[comp_name] = cell] *)
Fixpoint cells_loop (cs : components) (nm : pydict Z) (names : list str)
         (cells : pydict cell) : result (pydict cell) :=
  match names with
  | [] => Ok cells
  | comp_name :: names' =>
      c <- make_cell cs nm comp_name ;;
      cells_loop cs nm names' (dict_set cells comp_name c)
  end.

(** The dict [cells] of [generate_netlistsvg_json], which [json.dumps]
    writes in insertion order. *)
Definition netlistsvg_cells (cs : components) : result (pydict cell) :=
  let nm := net_map cs in
  names <- sorted_comp_names cs ;;
  cells_loop cs nm names [].

(** *** The pass as a function of each token's two neighbours *)

(** The node recorded for a terminal, if any:
    [components[comp][term]] without the insertion. *)
Definition recorded (cs : components) (comp term : str) : option str :=
  match dict_get cs comp with
  | Some conns => dict_get conns term
  | None => None
  end.

(** The test of lines 35 and 50 on a neighbour of a terminal of
    [comp_name]. *)
Definition external (other comp_name : str) : bool :=
  negb (str_eqb other comp_name)
  && negb (is_part_of_same_comp other comp_name).

Definition observe (cs : components) (comp_name term_type : str)
           (neighbour : option str) : components :=
  match neighbour with
  | Some other =>
      if external other comp_name
      then record_first cs comp_name term_type other
      else cs
  | None => cs
  end.

Definition step (prev : option str) (part : str) (next : option str)
           (cs : components) : components :=
  match terminal_regex part with
  | None => cs
  | Some (comp_type, comp_num, term_type) =>
      let comp_name := comp_type ++ comp_num in
      observe (observe cs comp_name term_type prev) comp_name term_type next
  end.

Fixpoint scan (prev : option str) (rest : list str) (cs : components)
  : components :=
  match rest with
  | [] => cs
  | part :: rest' =>
      scan (Some part) rest' (step prev part (hd_error rest') cs)
  end.

Definition last_error (l : list str) : option str :=
  match rev l with
  | [] => None
  | x :: _ => Some x
  end.

(** What a position finds: the admissible neighbours of a terminal
    token, the left one first. *)
Definition discovery := (str * str * str)%type.

Definition seen (comp_name term_type : str) (neighbour : option str)
  : list discovery :=
  match neighbour with
  | Some other =>
      if external other comp_name
      then [(comp_name, term_type, other)]
      else []
  | None => []
  end.

Definition found_at (prev : option str) (part : str) (next : option str)
  : list discovery :=
  match terminal_regex part with
  | None => []
  | Some (comp_type, comp_num, term_type) =>
      let comp_name := comp_type ++ comp_num in
      seen comp_name term_type prev ++ seen comp_name term_type next
  end.

(** All discoveries of a path, in the order of the pass. *)
Fixpoint discoveries (prev : option str) (rest : list str)
  : list discovery :=
  match rest with
  | [] => []
  | part :: rest' =>
      found_at prev part (hd_error rest') ++ discoveries (Some part) rest'
  end.

Definition is_for (comp term : str) (d : discovery) : bool :=
  str_eqb (fst (fst d)) comp && str_eqb (snd (fst d)) term.

Definition first_discovery (ds : list discovery) (comp term : str)
  : option str :=
  option_map snd (find (is_for comp term) ds).

(** [tok] and [other] are next to each other in [path]. *)
Definition adjacent (path : list str) (tok other : str) : Prop :=
  exists pre post,
    path = pre ++ tok :: other :: post \/ path = pre ++ other :: tok :: post.

(** A component identifier: a type code followed by decimal digits. *)
Definition comp_id (name : str) : Prop :=
  exists comp_type comp_num,
    name = comp_type ++ comp_num
    /\ In comp_type comp_types
    /\ comp_num <> []
    /\ Forall (fun c => isdecimal c = true) comp_num.

(** Whether [term] is a terminal of the type of [comp_name], as
    [port_directions] lists them (and as the lines of
    [generate_spice_netlist] read them). *)
Definition legal_terminal (comp_name term : str) : bool :=
  dict_mem (port_directions (comp_type_prefix comp_name)) term.

(** The maps the pass builds: keys are unique, at both levels, and no
    component is left without a terminal. *)
Definition well_formed (cs : components) : Prop :=
  NoDup (dict_keys cs)
  /\ Forall (fun kv => snd kv <> [] /\ NoDup (dict_keys (snd kv))) cs.

(** The first of two optional nodes that is there. *)
Definition or_else (a b : option str) : option str :=
  match a with
  | Some v => Some v
  | None => b
  end.

(** The order of the sort keys. *)
Definition key_le (a b : str * Z) : Prop :=
  str_ltb (fst a) (fst b) = true \/ (fst a = fst b /\ (snd a <= snd b)%Z).

(** The same order on elements that carry their key. *)
Definition by_key {A} (p q : (str * Z) * A) : Prop :=
  key_le (fst p) (fst q).

(** [a] comes no later than [b]: by type code, then by the integer
    value of the digits. *)
Definition name_le (a b : str) : Prop :=
  exists ka kb, sort_key a = Ok ka /\ sort_key b = Ok kb /\ key_le ka kb.

(** *** The ports of [generate_netlistsvg_json] *)

(** The interpreter's Unicode database again: the full uppercase
    mapping of a non-ASCII code point, which can be several code
    points, or an ASCII letter. *)
Variable unicode_upper : char -> str.

Definition toupper_full (c : char) : str :=
  if (c <? 128)%N then
    if (97 <=? c)%N && (c <=? 122)%N then [(c - 32)%N] else [c]
  else unicode_upper c.

(** [s.upper()]: code point by code point. *)
Definition upper (s : str) : str := flat_map toupper_full s.

(** The dict of a port, by its two keys. *)
Record port := {
  port_direction : str;
  port_bits : list Z
}.

Definition input_prefixes : list str :=
  [pystr "VDD"; pystr "VSS"; pystr "GND"; pystr "VIN"; pystr "VCLK";
   pystr "VB"; pystr "IB"].

(** [[
    direction = "inout"
    if net_name.upper().startswith("VOUT"):
        direction = "output"
    elif any(net_name.upper().startswith(p) for p in [...]):
        direction = "input"
    ]] *)
Definition direction_of (net_name : str) : str :=
  if startswith (upper net_name) (pystr "VOUT") then pystr "output"
  else if existsb (startswith (upper net_name)) input_prefixes
       then pystr "input"
       else pystr "inout".

(** [for net_name in sorted(list(nets)): ...]; [None] is the [KeyError]
    of [net_map[net_name]]. *)
Fixpoint ports_loop (nm : pydict Z) (nets : list str) (ports : pydict port)
  : option (pydict port) :=
  match nets with
  | [] => Some ports
  | net_name :: nets' =>
      match dict_get nm net_name with
      | None => None
      | Some i =>
          let bits := [i] in
          let direction := direction_of net_name in
          if negb (str_eqb direction (pystr "inout"))
             || existsb (str_eqb (upper net_name)) [pystr "VDD"; pystr "VSS"]
          then
            ports_loop nm nets'
              (dict_set ports net_name
                 {| port_direction := direction; port_bits := bits |})
          else ports_loop nm nets' ports
      end
  end.

(** The dict [ports] of [generate_netlistsvg_json]. *)
Definition netlistsvg_ports (cs : components) : option (pydict port) :=
  ports_loop (net_map cs) (sorted_strs (nets_of cs)) [].

(** *** Notions for the properties of the two generators *)

(** What a Python dict is, and a dict of dicts: no key twice. *)
Definition is_dict {V} (d : pydict V) : Prop := NoDup (dict_keys d).

Definition dict_of_dicts (cs : components) : Prop :=
  is_dict cs /\ Forall (fun kv => is_dict (snd kv)) cs.

(** The nodes of a connection map. *)
Definition is_net (cs : components) (net : str) : Prop :=
  exists comp conns term, In (comp, conns) cs /\ In (term, net) conns.

(** ["->".join(tokens)] *)
Fixpoint join_arrow (tokens : list str) : str :=
  match tokens with
  | [] => []
  | [tok] => tok
  | tok :: tokens' => tok ++ pystr "->" ++ join_arrow tokens'
  end.

(** A path with the token before it, if any. *)
Definition with_prev (prev : option str) (rest : list str) : list str :=
  match prev with
  | Some p => p :: rest
  | None => rest
  end.

Definition key_eqb (a b : str * Z) : bool :=
  str_eqb (fst a) (fst b) && (snd a =? snd b)%Z.

(** The names whose sort key is [k]. *)
Definition has_key (k : str * Z) (x : str) : bool :=
  match sort_key x with
  | Ok k' => key_eqb k' k
  | Raise _ => false
  end.

(** A name whose digits are more than [int] converts. *)
Definition too_long (x : str) : Prop :=
  exists g1 g2,
    name_regex x = Some (g1, g2)
    /\ (int_max_str_digits < N.of_nat (length g2))%N.

(** The first field of a netlist line: what comes before the first
    space. *)
Definition instance_name (line : str) : str :=
  fst (span (fun c => negb (c =? 32)%N) line).

(** What a line shows for a terminal: the node the map has for it, or
    the placeholder. *)
Definition node_or_NC (cs : components) (comp : str) (t : string) : str :=
  match recorded cs comp (pystr t) with
  | Some node => node
  | None => NC
  end.

(** Whether a token matches the terminal pattern. *)
Definition is_terminal_token (tok : str) : bool :=
  match terminal_regex tok with
  | Some _ => true
  | None => false
  end.

(** *** What the netlist is expected to hold *)

(** By type code: the letter a component's line starts with, the
    terminals it lists, and what it ends with. *)
Definition netlist_letter (ty : str) : str :=
  if str_eqb ty (pystr "NM") || str_eqb ty (pystr "PM")
  then pystr "M" else ty.

Definition netlist_terminals (ty : str) : list string :=
  if str_eqb ty (pystr "NM") || str_eqb ty (pystr "PM")
  then ["D"; "G"; "S"; "B"]%string
  else ["P"; "N"]%string.

Definition netlist_tail (ty : str) : str :=
  if str_eqb ty (pystr "NM") then pystr "nmos_model"
  else if str_eqb ty (pystr "PM") then pystr "pmos_model"
  else if str_eqb ty (pystr "R") then pystr "1k"
  else pystr "1p".

(** The line of the component [name] of the map [cs]: the letter, the
    digits of the name, a space and a node (or NC) for each terminal,
    a space and the model or value. *)
Definition line_of (cs : components) (name : str) : str :=
  let ty := comp_type_prefix name in
  let num := skipn (length ty) name in
  netlist_letter ty ++ num
  ++ concat (map (fun t => pystr " " ++ node_or_NC cs name t)
               (netlist_terminals ty))
  ++ pystr " " ++ netlist_tail ty.

(** The text of a netlist with these component lines: the heading,
    then every line and the closing [.END], each after a newline. *)
Definition netlist_text (lines : list str) : str :=
  pystr "* Generated SPICE netlist"
  ++ concat (map (fun l => 10%N :: l) (lines ++ [pystr ".END"])).

(** [a] comes no later than [b], for component identifiers: the type
    code of [a] is before that of [b], or they are the same and the
    digits of [a] are, as a number, at most those of [b]. *)
Definition comp_le (a b : str) : Prop :=
  exists ty num n ty' num' n',
    a = ty ++ num /\ b = ty' ++ num'
    /\ In ty comp_types /\ In ty' comp_types
    /\ Forall (fun c => isdecimal c = true) num
    /\ Forall (fun c => isdecimal c = true) num'
    /\ int_digits 0 num = Some n /\ int_digits 0 num' = Some n'
    /\ (str_ltb ty ty' = true \/ (ty = ty' /\ (n <= n')%N)).

(** A component identifier with more digits than [int] converts. *)
Definition digits_beyond_limit (name : str) : Prop :=
  exists ty num,
    name = ty ++ num /\ In ty comp_types
    /\ Forall (fun c => isdecimal c = true) num
    /\ (int_max_str_digits < N.of_nat (length num))%N.

(** A net that [generate_netlistsvg_json] lists as a port. *)
Definition is_port_name (net_name : str) : bool :=
  startswith (upper net_name) (pystr "VOUT")
  || existsb (startswith (upper net_name)) input_prefixes.

Example parse_left_priority :
  parse_connections (pystr "A->R1_P->B")
  = Ok [(pystr "R1", [(pystr "P", pystr "A")])].
Proof. vm_compute. reflexivity. Qed.

Example parse_same_comp :
  parse_connections (pystr "NM1_D->NM1_G->X")
  = Ok [(pystr "NM1", [(pystr "G", pystr "X")])].
Proof. vm_compute. reflexivity. Qed.

(** ** Strings and dicts *)

Lemma str_eqb_eq (a b : str) : str_eqb a b = true <-> a = b.
Proof.
  revert b; induction a as [|x a IH]; intros [|y b]; simpl;
    split; try easy.
  - intros H. apply andb_true_iff in H as [H1 H2].
    apply N.eqb_eq in H1. apply IH in H2. now subst.
  - intros [= -> ->]. rewrite N.eqb_refl. now apply IH.
Qed.

Lemma str_eqb_refl (a : str) : str_eqb a a = true.
Proof. now apply str_eqb_eq. Qed.

Lemma str_eqb_neq (a b : str) : str_eqb a b = false <-> a <> b.
Proof.
  split.
  - intros H E. apply str_eqb_eq in E. congruence.
  - intros H. destruct (str_eqb a b) eqn:E; [|reflexivity].
    apply str_eqb_eq in E. contradiction.
Qed.

Ltac str_cases a b :=
  let E := fresh "E" in
  destruct (str_eqb a b) eqn:E;
  [apply str_eqb_eq in E | apply str_eqb_neq in E].

Section Dict.
Variable V : Type.
Implicit Types (d : pydict V) (k : str) (v : V).

Lemma dict_get_set d k v k' :
  dict_get (dict_set d k v) k'
  = if str_eqb k k' then Some v else dict_get d k'.
Proof.
  induction d as [|[k0 v0] d IH]; simpl.
  - reflexivity.
  - str_cases k0 k; simpl.
    + subst k0. str_cases k k'; reflexivity.
    + rewrite IH. str_cases k0 k'; [|reflexivity].
      subst k0. str_cases k k'; [congruence|reflexivity].
Qed.

Lemma dict_get_In d k v : dict_get d k = Some v -> In (k, v) d.
Proof.
  induction d as [|[k0 v0] d IH]; simpl; [discriminate|].
  str_cases k0 k.
  - intros [= ->]. left. now subst.
  - intros H. right. now apply IH.
Qed.

Lemma dict_get_None d k : dict_get d k = None <-> ~ In k (dict_keys d).
Proof.
  induction d as [|[k0 v0] d IH]; simpl.
  - split; [intros _ []|reflexivity].
  - str_cases k0 k.
    + split; [discriminate|]. intros H. exfalso. apply H. now left.
    + rewrite IH. split.
      * intros H [?|?]; [contradiction|now apply H].
      * intros H H'. apply H. now right.
Qed.

Lemma In_dict_get d k v :
  NoDup (dict_keys d) -> In (k, v) d -> dict_get d k = Some v.
Proof.
  induction d as [|[k0 v0] d IH]; simpl; [easy|].
  intros ND [E|H].
  - injection E as -> ->. now rewrite str_eqb_refl.
  - inversion_clear ND as [|? ? Hn ND'].
    str_cases k0 k.
    + subst k0. exfalso. apply Hn.
      change k with (fst (k, v)). now apply in_map.
    + now apply IH.
Qed.

Lemma dict_keys_set d k v :
  dict_keys (dict_set d k v)
  = if dict_mem d k then dict_keys d else dict_keys d ++ [k].
Proof.
  unfold dict_mem.
  induction d as [|[k0 v0] d IH]; simpl; [reflexivity|].
  str_cases k0 k; simpl; [reflexivity|].
  rewrite IH. now destruct (dict_get d k).
Qed.

Lemma NoDup_dict_set d k v :
  NoDup (dict_keys d) -> NoDup (dict_keys (dict_set d k v)).
Proof.
  intros ND. rewrite dict_keys_set. unfold dict_mem.
  destruct (dict_get d k) eqn:E; [assumption|].
  apply dict_get_None in E.
  apply NoDup_rev in ND. rewrite <- (rev_involutive (_ ++ _)).
  apply NoDup_rev. rewrite rev_app_distr. simpl.
  constructor; [|assumption]. now rewrite <- in_rev.
Qed.

Lemma In_dict_set d k v k' v' :
  In (k', v') (dict_set d k v) -> (k' = k /\ v' = v) \/ In (k', v') d.
Proof.
  induction d as [|[k0 v0] d IH]; simpl.
  - intros [[= <- <-]|[]]. now left.
  - str_cases k0 k; simpl.
    + intros [[= <- <-]|H]; [left|right; right]; auto.
    + intros [H|H]; [right; now left|].
      destruct (IH H) as [?|?]; [now left|right; now right].
Qed.

Lemma Forall_dict_set (P : str * V -> Prop) d k v :
  Forall P d -> P (k, v) -> Forall P (dict_set d k v).
Proof.
  intros HF HP. apply Forall_forall. intros [k' v'] HI.
  apply In_dict_set in HI as [[-> ->]|HI]; [assumption|].
  revert HI. now apply Forall_forall.
Qed.

Lemma dict_set_set d k v v' :
  dict_set (dict_set d k v) k v' = dict_set d k v'.
Proof.
  induction d as [|[k0 v0] d IH]; simpl.
  - now rewrite str_eqb_refl.
  - destruct (str_eqb k0 k) eqn:E; simpl; rewrite E; [reflexivity|].
    now rewrite IH.
Qed.
End Dict.

(** ** Recording a node: first write wins *)

Lemma recorded_record_first cs c t n c' t' :
  recorded (record_first cs c t n) c' t'
  = match recorded cs c' t' with
    | Some v => Some v
    | None => if str_eqb c c' && str_eqb t t' then Some n else None
    end.
Proof.
  unfold record_first, defaultdict_getitem, recorded, dict_mem.
  destruct (dict_get cs c) as [conns|] eqn:Ec.
  - destruct (dict_get conns t) as [v|] eqn:Et.
    + str_cases c c'; [subst c'|]; simpl.
      * rewrite Ec. str_cases t t'; [subst t'; now rewrite Et|].
        now destruct (dict_get conns t').
      * now destruct (dict_get cs c') as [conns'|];
          [destruct (dict_get conns' t')|].
    + rewrite Ec, dict_get_set.
      str_cases c c'; [subst c'|]; simpl.
      * rewrite Ec, dict_get_set.
        str_cases t t'; [subst t'; now rewrite Et|].
        now destruct (dict_get conns t').
      * now destruct (dict_get cs c') as [conns'|];
          [destruct (dict_get conns' t')|].
  - simpl. rewrite dict_get_set, str_eqb_refl, !dict_get_set. simpl.
    str_cases c c'; [subst c'|]; simpl.
    + rewrite Ec. now destruct (str_eqb t t').
    + now destruct (dict_get cs c') as [conns'|];
        [destruct (dict_get conns' t')|].
Qed.

Lemma record_first_keeps cs c t n c' t' v :
  recorded cs c' t' = Some v ->
  recorded (record_first cs c t n) c' t' = Some v.
Proof. intros H. now rewrite recorded_record_first, H. Qed.

Lemma well_formed_nil : well_formed [].
Proof. split; constructor. Qed.

Lemma well_formed_record_first cs c t n :
  well_formed cs -> well_formed (record_first cs c t n).
Proof.
  intros [ND HF].
  unfold record_first, defaultdict_getitem, dict_mem.
  destruct (dict_get cs c) as [conns|] eqn:Ec.
  - destruct (dict_get conns t) as [v|] eqn:Et; [now split|].
    rewrite Ec. split; [now apply NoDup_dict_set|].
    apply Forall_dict_set; [assumption|]. simpl. split.
    + now destruct conns as [|[? ?] ?]; simpl; [|destruct (str_eqb _ _)].
    + apply NoDup_dict_set.
      apply dict_get_In in Ec.
      rewrite Forall_forall in HF. now apply (HF _ Ec).
  - simpl. rewrite dict_get_set, str_eqb_refl, dict_set_set. split.
    + now apply NoDup_dict_set.
    + apply Forall_dict_set; [assumption|]. simpl.
      split; [discriminate|]. repeat constructor. intros [].
Qed.

(** ** The loop reads each token's two neighbours and never raises *)

Lemma py_index_middle (A : Type) (pre : list A) x post :
  py_index (pre ++ x :: post) (Z.of_nat (length pre)) = Ok x.
Proof.
  unfold py_index. rewrite length_app. simpl length.
  destruct (Z.ltb_spec (Z.of_nat (length pre)) 0); [lia|].
  destruct (Z.ltb_spec (Z.of_nat (length pre)) 0); [lia|].
  destruct (Z.leb_spec (Z.of_nat (length pre + S (length post)))
              (Z.of_nat (length pre))); [lia|].
  simpl. rewrite Nat2Z.id, nth_error_app2 by lia.
  now rewrite Nat.sub_diag.
Qed.

Lemma last_error_snoc pre p : last_error (pre ++ [p]) = Some p.
Proof. unfold last_error. now rewrite rev_app_distr. Qed.

Lemma visit_step pre part post cs :
  visit (pre ++ part :: post) (Z.of_nat (length pre)) part cs
  = Ok (step (last_error pre) part (hd_error post) cs).
Proof.
  unfold visit, step.
  destruct (terminal_regex part) as [[[ty num] t]|]; [|reflexivity].
  set (comp_name := ty ++ num).
  assert (Hprev :
    (if (Z.of_nat (length pre) >? 0)%Z then
       prev_part <- py_index (pre ++ part :: post)
                      (Z.of_nat (length pre) - 1) ;;
       if negb (str_eqb prev_part comp_name)
          && negb (is_part_of_same_comp prev_part comp_name)
       then Ok (record_first cs comp_name t prev_part)
       else Ok cs
     else Ok cs)
    = Ok (observe cs comp_name t (last_error pre))).
  { destruct pre as [|c pre0]; [reflexivity|].
    destruct (@exists_last _ (c :: pre0)) as (pre' & p & HE);
      [discriminate|].
    rewrite HE, <- app_assoc, length_app. simpl length.
    replace (Z.of_nat (length pre' + 1) - 1)%Z
      with (Z.of_nat (length pre')) by lia.
    destruct (Z.gtb_spec (Z.of_nat (length pre' + 1)) 0); [|lia].
    simpl app. rewrite py_index_middle, last_error_snoc. simpl.
    unfold external. now destruct (_ && _). }
  rewrite Hprev. simpl bind.
  destruct post as [|q post']; simpl hd_error.
  - rewrite length_app. simpl length.
    destruct (Z.ltb_spec (Z.of_nat (length pre))
                (Z.of_nat (length pre + 1) - 1)); [lia|].
    reflexivity.
  - rewrite length_app. simpl length.
    destruct (Z.ltb_spec (Z.of_nat (length pre))
                (Z.of_nat (length pre + S (S (length post'))) - 1));
      [|lia].
    replace (pre ++ part :: q :: post') with ((pre ++ [part]) ++ q :: post')
      by now rewrite <- app_assoc.
    replace (Z.of_nat (length pre) + 1)%Z
      with (Z.of_nat (length (pre ++ [part])))
      by (rewrite length_app; simpl; lia).
    rewrite py_index_middle. simpl.
    unfold external. now destruct (_ && _).
Qed.

Lemma enumerate_loop_scan rest : forall pre cs,
  enumerate_loop (pre ++ rest) (Z.of_nat (length pre)) rest cs
  = Ok (scan (last_error pre) rest cs).
Proof.
  induction rest as [|part rest IH]; intros pre cs; simpl.
  - reflexivity.
  - rewrite visit_step. simpl.
    replace (pre ++ part :: rest) with ((pre ++ [part]) ++ rest)
      by now rewrite <- app_assoc.
    replace (Z.of_nat (length pre) + 1)%Z
      with (Z.of_nat (length (pre ++ [part])))
      by (rewrite length_app; simpl; lia).
    now rewrite IH, last_error_snoc.
Qed.

Lemma parse_path_scan path : parse_path path = Ok (scan None path []).
Proof. exact (enumerate_loop_scan path [] []). Qed.

(** ** What is recorded is the first discovery *)

Lemma or_else_None a : or_else a None = a.
Proof. now destruct a. Qed.

Lemma or_else_assoc a b c : or_else (or_else a b) c = or_else a (or_else b c).
Proof. now destruct a. Qed.

Lemma first_discovery_app ds ds' c t :
  first_discovery (ds ++ ds') c t
  = or_else (first_discovery ds c t) (first_discovery ds' c t).
Proof.
  unfold first_discovery.
  induction ds as [|d ds IH]; simpl; [reflexivity|].
  now destruct (is_for c t d).
Qed.

Lemma first_discovery_In ds c t v :
  first_discovery ds c t = Some v -> In (c, t, v) ds.
Proof.
  unfold first_discovery.
  destruct (find (is_for c t) ds) as [[[c' t'] v']|] eqn:E;
    [|discriminate].
  intros [= <-]. apply find_some in E as [HI HF].
  unfold is_for in HF. simpl in HF. apply andb_true_iff in HF as [H1 H2].
  apply str_eqb_eq in H1, H2. now subst.
Qed.

Lemma In_first_discovery ds c t v :
  In (c, t, v) ds -> exists v', first_discovery ds c t = Some v'.
Proof.
  unfold first_discovery. intros HI.
  destruct (find (is_for c t) ds) as [[[c' t'] v']|] eqn:E.
  - now exists v'.
  - apply (find_none _ _ E) in HI. unfold is_for in HI. simpl in HI.
    now rewrite !str_eqb_refl in HI.
Qed.

Lemma recorded_observe cs c t nb c' t' :
  recorded (observe cs c t nb) c' t'
  = or_else (recorded cs c' t') (first_discovery (seen c t nb) c' t').
Proof.
  unfold observe, seen. destruct nb as [other|].
  - destruct (external other c).
    + rewrite recorded_record_first.
      unfold first_discovery, is_for. simpl.
      now destruct (str_eqb c c' && str_eqb t t').
    + now rewrite or_else_None.
  - now rewrite or_else_None.
Qed.

Lemma recorded_step prev part next cs c t :
  recorded (step prev part next cs) c t
  = or_else (recorded cs c t)
      (first_discovery (found_at prev part next) c t).
Proof.
  unfold step, found_at.
  destruct (terminal_regex part) as [[[ty num] term]|].
  - now rewrite !recorded_observe, first_discovery_app, or_else_assoc.
  - now rewrite or_else_None.
Qed.

Lemma recorded_scan rest : forall prev cs c t,
  recorded (scan prev rest cs) c t
  = or_else (recorded cs c t)
      (first_discovery (discoveries prev rest) c t).
Proof.
  induction rest as [|part rest IH]; intros prev cs c t; simpl.
  - now rewrite or_else_None.
  - now rewrite IH, recorded_step, first_discovery_app, or_else_assoc.
Qed.

Lemma well_formed_observe cs c t nb :
  well_formed cs -> well_formed (observe cs c t nb).
Proof.
  intros H. unfold observe. destruct nb as [other|]; [|assumption].
  destruct (external other c); [|assumption].
  now apply well_formed_record_first.
Qed.

Lemma well_formed_scan rest : forall prev cs,
  well_formed cs -> well_formed (scan prev rest cs).
Proof.
  induction rest as [|part rest IH]; intros prev cs H; simpl.
  - assumption.
  - apply IH. unfold step.
    destruct (terminal_regex part) as [[[ty num] term]|]; [|assumption].
    now do 2 apply well_formed_observe.
Qed.

(** Every discovery is an admissible neighbour of a terminal token. *)
Lemma discoveries_sound rest : forall prev c t nb,
  In (c, t, nb) (discoveries prev rest) ->
  exists part ty num,
    In part rest /\ terminal_regex part = Some (ty, num, t)
    /\ c = ty ++ num /\ external nb c = true.
Proof.
  induction rest as [|part rest IH]; intros prev c t nb; simpl; [easy|].
  intros HI. apply in_app_or in HI as [HI|HI].
  - unfold found_at in HI.
    destruct (terminal_regex part) as [[[ty num] term]|] eqn:E; [|easy].
    assert (Hseen : forall o, In (c, t, nb) (seen (ty ++ num) term o) ->
              c = ty ++ num /\ t = term /\ external nb c = true).
    { intros [o|]; simpl; [|easy].
      destruct (external o (ty ++ num)) eqn:Ex; [|easy].
      intros [[= <- <- <-]|[]]. auto. }
    apply in_app_or in HI as [HI|HI];
      apply Hseen in HI as (-> & -> & Hx);
      exists part, ty, num; auto.
  - destruct (IH _ _ _ _ HI) as (p & ty & num & H1 & H2).
    exists p, ty, num. auto.
Qed.

(** Every admissible neighbour of a terminal token is a discovery. *)
Lemma discoveries_complete path tok other ty num t : forall prev,
  adjacent path tok other ->
  terminal_regex tok = Some (ty, num, t) ->
  external other (ty ++ num) = true ->
  In (ty ++ num, t, other) (discoveries prev path).
Proof.
  intros prev (pre & post & HP) Hm Hx. revert prev.
  assert (Hright : forall prev,
            In (ty ++ num, t, other)
               (discoveries prev (tok :: other :: post))).
  { intros prev. simpl. unfold found_at at 1. rewrite Hm.
    apply in_or_app. left. apply in_or_app. right.
    simpl. rewrite Hx. now left. }
  assert (Hleft : forall prev,
            In (ty ++ num, t, other)
               (discoveries prev (other :: tok :: post))).
  { intros prev. simpl. apply in_or_app. right.
    unfold found_at at 1. rewrite Hm.
    apply in_or_app. left. apply in_or_app. left.
    simpl. rewrite Hx. now left. }
  destruct HP as [-> | ->]; induction pre as [|x pre IH]; intros prev;
    simpl app; auto; simpl; apply in_or_app; right; apply IH.
Qed.

(** ** The terminal pattern *)

Lemma strip_prefix_Some p : forall s rest,
  strip_prefix p s = Some rest <-> s = p ++ rest.
Proof.
  induction p as [|x p IH]; intros [|y s] rest; simpl.
  - split; congruence.
  - split; congruence.
  - split; discriminate.
  - destruct (N.eqb_spec x y) as [->|Hn].
    + rewrite IH. split; congruence.
    + split; congruence.
Qed.

Lemma span_eq f s : forall a b,
  span f s = (a, b) ->
  s = a ++ b
  /\ Forall (fun c => f c = true) a
  /\ match b with [] => True | x :: _ => f x = false end.
Proof.
  induction s as [|c s IH]; simpl; intros a b.
  - intros [= <- <-]. auto.
  - destruct (f c) eqn:Ec.
    + destruct (span f s) as [a' b']. intros [= <- <-].
      destruct (IH _ _ eq_refl) as (-> & HF & Hb). auto.
    + intros [= <- <-]. auto.
Qed.

Lemma span_app f a b :
  Forall (fun c => f c = true) a ->
  match b with [] => True | x :: _ => f x = false end ->
  span f (a ++ b) = (a, b).
Proof.
  intros HF Hb. induction HF as [|c a Hc HF IH]; simpl.
  - destruct b as [|x b]; simpl; [reflexivity|now rewrite Hb].
  - now rewrite Hc, IH.
Qed.

Lemma try_alts_Some (R : Type) alts s (k : str -> str -> option R) r :
  try_alts alts s k = Some r ->
  exists a rest, In a alts /\ s = a ++ rest /\ k a rest = Some r.
Proof.
  induction alts as [|a alts IH]; simpl; [discriminate|].
  destruct (strip_prefix a s) as [rest|] eqn:E.
  - destruct (k a rest) as [r'|] eqn:Ek.
    + intros [= ->]. apply strip_prefix_Some in E. exists a, rest. auto.
    + intros H. destruct (IH H) as (a' & rest' & ? & ? & ?).
      exists a', rest'. auto.
  - intros H. destruct (IH H) as (a' & rest' & ? & ? & ?).
    exists a', rest'. auto.
Qed.

Lemma isdecimal_range c :
  isdecimal c = true -> (48 <= c <= 57 \/ 128 <= c)%N.
Proof.
  unfold isdecimal, todecimal.
  destruct (N.ltb_spec c 128); [|auto].
  destruct (N.leb_spec 48 c), (N.leb_spec c 57); simpl;
    try discriminate.
  auto.
Qed.

Lemma terminal_letter_cases l :
  terminal_letter l = true ->
  In l (pystr "DGSBPN").
Proof.
  unfold terminal_letter. intros H.
  apply existsb_exists in H as (x & HI & Hx).
  apply N.eqb_eq in Hx. now subst.
Qed.

Lemma terminal_regex_inv part ty num t :
  terminal_regex part = Some (ty, num, t) ->
  In ty comp_types
  /\ num <> []
  /\ Forall (fun c => isdecimal c = true) num
  /\ exists l tail,
       t = [l] /\ terminal_letter l = true /\ at_end tail = true
       /\ part = ty ++ num ++ 95%N :: l :: tail.
Proof.
  unfold terminal_regex. intros H.
  apply try_alts_Some in H as (a & rest & Ha & -> & Hk).
  unfold id_and_terminal in Hk.
  destruct (span isdecimal rest) as [comp_num rest'] eqn:Es.
  apply span_eq in Es as (-> & HF & _).
  destruct comp_num as [|d ds]; [discriminate|].
  destruct rest' as [|u [|l tail]]; try discriminate.
  destruct (N.eqb_spec u 95) as [->|]; [|discriminate].
  destruct (terminal_letter l) eqn:El; [|discriminate].
  destruct (at_end tail) eqn:Ee; [|discriminate].
  simpl in Hk. injection Hk as <- <- <-.
  repeat split; [assumption|discriminate|assumption|].
  exists l, tail. auto.
Qed.

Lemma id_and_terminal_intro ty num l tail :
  num <> [] ->
  Forall (fun c => isdecimal c = true) num ->
  terminal_letter l = true ->
  at_end tail = true ->
  id_and_terminal ty (num ++ 95%N :: l :: tail) = Some (ty, num, [l]).
Proof.
  intros Hn HF Hl He. unfold id_and_terminal.
  rewrite span_app by (assumption || reflexivity).
  destruct num as [|d ds]; [contradiction|].
  now rewrite Hl, He.
Qed.

Lemma terminal_regex_intro ty num l tail :
  In ty comp_types ->
  num <> [] ->
  Forall (fun c => isdecimal c = true) num ->
  terminal_letter l = true ->
  at_end tail = true ->
  terminal_regex (ty ++ num ++ 95%N :: l :: tail) = Some (ty, num, [l]).
Proof.
  intros Ht Hn HF Hl He.
  pose proof (@id_and_terminal_intro ty num l tail Hn HF Hl He) as Hk.
  unfold terminal_regex.
  destruct Ht as [<-|[<-|[<-|[<-|[]]]]]; simpl; now rewrite Hk.
Qed.

(** ** The result of [parse_connections] *)

Lemma parse_connections_scan data :
  parse_connections data = Ok (scan None (split_arrow (strip data)) []).
Proof. apply parse_path_scan. Qed.

Lemma recorded_parse path c t :
  recorded (scan None path []) c t
  = first_discovery (discoveries None path) c t.
Proof. now rewrite recorded_scan. Qed.

Lemma In_recorded cs c conns t v :
  well_formed cs -> In (c, conns) cs -> In (t, v) conns ->
  recorded cs c t = Some v.
Proof.
  intros [ND HF] Hc Ht. unfold recorded.
  rewrite (@In_dict_get _ cs c conns ND Hc).
  rewrite Forall_forall in HF. destruct (HF _ Hc) as [_ ND'].
  now apply In_dict_get.
Qed.

Lemma recorded_In cs c t v :
  recorded cs c t = Some v ->
  exists conns, In (c, conns) cs /\ In (t, v) conns.
Proof.
  unfold recorded. destruct (dict_get cs c) as [conns|] eqn:E; [|easy].
  intros H. exists conns. split; now apply dict_get_In.
Qed.

Lemma key_has_terminal cs c conns :
  well_formed cs -> In (c, conns) cs ->
  exists t v, In (t, v) conns /\ recorded cs c t = Some v.
Proof.
  intros WF Hc. pose proof WF as [_ HF].
  rewrite Forall_forall in HF. destruct (HF _ Hc) as [Hne _].
  simpl in Hne. destruct conns as [|[t v] conns]; [contradiction|].
  exists t, v. split; [now left|].
  apply (@In_recorded cs c ((t, v) :: conns) t v WF Hc). now left.
Qed.

(** Whatever is recorded was found next to a terminal token of that
    component, and passed the test of lines 35 and 50. *)
Lemma recorded_parse_inv path c t v :
  recorded (scan None path []) c t = Some v ->
  exists part ty num,
    In part path /\ terminal_regex part = Some (ty, num, t)
    /\ c = ty ++ num /\ external v c = true.
Proof.
  rewrite recorded_parse. intros H.
  apply first_discovery_In in H. now apply discoveries_sound in H.
Qed.

Lemma visit_keeps path i part cs cs' c t v :
  visit path i part cs = Ok cs' ->
  recorded cs c t = Some v -> recorded cs' c t = Some v.
Proof.
  unfold visit. intros H Hr.
  destruct (terminal_regex part) as [[[ty num] term]|];
    [|now injection H as <-].
  assert (Hobs : forall cs0 other,
    recorded cs0 c t = Some v ->
    forall cs1,
    (if negb (str_eqb other (ty ++ num))
        && negb (is_part_of_same_comp other (ty ++ num))
     then Ok (record_first cs0 (ty ++ num) term other)
     else Ok cs0) = Ok cs1 ->
    recorded cs1 c t = Some v).
  { intros cs0 other H0 cs1. destruct (_ && _); intros [= <-];
      [now apply record_first_keeps|assumption]. }
  assert (exists cs1, recorded cs1 c t = Some v /\
    (if (i <? Z.of_nat (length path) - 1)%Z then
       next_part <- py_index path (i + 1) ;;
       if negb (str_eqb next_part (ty ++ num))
          && negb (is_part_of_same_comp next_part (ty ++ num))
       then Ok (record_first cs1 (ty ++ num) term next_part)
       else Ok cs1
     else Ok cs1) = Ok cs') as (cs1 & H1 & H2).
  { destruct (i >? 0)%Z.
    - destruct (py_index path (i - 1)) as [prev_part|e]; simpl in H;
        [|discriminate].
      destruct (negb (str_eqb prev_part (ty ++ num))
                && negb (is_part_of_same_comp prev_part (ty ++ num)));
        simpl in H; eexists; (split; [|exact H]);
        [now apply record_first_keeps|assumption].
    - simpl in H. eauto. }
  destruct (i <? Z.of_nat (length path) - 1)%Z.
  - destruct (py_index path (i + 1)) as [next_part|e]; simpl in H2;
      [|discriminate].
    now apply (Hobs cs1 next_part).
  - now injection H2 as <-.
Qed.

Lemma enumerate_loop_keeps path rest : forall i cs cs' c t v,
  enumerate_loop path i rest cs = Ok cs' ->
  recorded cs c t = Some v -> recorded cs' c t = Some v.
Proof.
  induction rest as [|part rest IH]; simpl; intros i cs cs' c t v H Hr.
  - now injection H as <-.
  - destruct (visit path i part cs) as [cs1|e] eqn:Ev; [|discriminate].
    simpl in H. apply (IH _ _ _ _ _ _ H).
    now apply (@visit_keeps path i part cs cs1 c t v Ev).
Qed.

Lemma scan_no_terminal rest : forall prev cs,
  Forall (fun tok => terminal_regex tok = None) rest ->
  scan prev rest cs = cs.
Proof.
  induction rest as [|part rest IH]; intros prev cs HF; simpl.
  - reflexivity.
  - inversion_clear HF as [|? ? Hp HF']. unfold step. rewrite Hp.
    now apply IH.
Qed.

Lemma parse_connections_inv data cs :
  parse_connections data = Ok cs ->
  cs = scan None (split_arrow (strip data)) [] /\ well_formed cs.
Proof.
  rewrite parse_connections_scan. intros [= <-]. split; [reflexivity|].
  apply well_formed_scan, well_formed_nil.
Qed.

Lemma parse_key_comp_id data cs comp conns :
  parse_connections data = Ok cs -> In (comp, conns) cs -> comp_id comp.
Proof.
  intros Hp Hc. apply parse_connections_inv in Hp as [-> WF].
  destruct (key_has_terminal _ _ _ WF Hc) as (t & v & _ & Hr).
  apply recorded_parse_inv in Hr as (part & ty & num & _ & Hm & -> & _).
  apply terminal_regex_inv in Hm as (Ht & Hn & HF & _).
  now exists ty, num.
Qed.

Lemma parse_terminal_letter data cs comp conns term node :
  parse_connections data = Ok cs ->
  In (comp, conns) cs -> In (term, node) conns ->
  exists l, term = [l] /\ terminal_letter l = true.
Proof.
  intros Hp Hc Ht. apply parse_connections_inv in Hp as [-> WF].
  pose proof (In_recorded _ _ _ _ _ WF Hc Ht) as Hr.
  apply recorded_parse_inv in Hr as (part & ty & num & _ & Hm & _ & _).
  apply terminal_regex_inv in Hm as (_ & _ & _ & l & tail & -> & Hl & _).
  now exists l.
Qed.

(** After a type code the alternation is decided: no other code is a
    prefix of a string that starts with this one. *)
Lemma terminal_regex_after_type ty rest :
  In ty comp_types ->
  terminal_regex (ty ++ rest) = id_and_terminal ty rest.
Proof.
  unfold terminal_regex.
  intros [<-|[<-|[<-|[<-|[]]]]]; simpl;
    now destruct (id_and_terminal _ rest).
Qed.

Lemma isdecimal_not_upper d : isdecimal d = true -> upper_AZ d = false.
Proof.
  intros H. apply isdecimal_range in H. unfold upper_AZ.
  destruct (N.leb_spec 65 d), (N.leb_spec d 90); simpl; try reflexivity.
  lia.
Qed.

Lemma comp_type_prefix_of ty d rest :
  In ty comp_types -> isdecimal d = true ->
  comp_type_prefix (ty ++ d :: rest) = ty.
Proof.
  intros Ht Hd. apply isdecimal_not_upper in Hd.
  unfold comp_type_prefix.
  destruct Ht as [<-|[<-|[<-|[<-|[]]]]]; simpl; now rewrite Hd.
Qed.



Lemma visit_no_match path i tok cs :
  terminal_regex tok = None -> visit path i tok cs = Ok cs.
Proof. unfold visit. now intros ->. Qed.

Lemma external_no_match tok comp :
  terminal_regex tok = None -> tok <> comp -> external tok comp = true.
Proof.
  intros Hm Hn. unfold external, is_part_of_same_comp. rewrite Hm.
  apply str_eqb_neq in Hn. now rewrite Hn.
Qed.

Lemma record_first_nil c t n : record_first [] c t n = [(c, [(t, n)])].
Proof.
  unfold record_first, defaultdict_getitem. simpl.
  rewrite !str_eqb_refl. simpl. now rewrite str_eqb_refl.
Qed.

(** A terminal token with an admissible token after it, or before it. *)
Lemma parse_path_right tok other ty num t :
  terminal_regex tok = Some (ty, num, t) ->
  terminal_regex other = None ->
  external other (ty ++ num) = true ->
  parse_path [tok; other] = Ok [(ty ++ num, [(t, other)])].
Proof.
  intros Hm Ho Hx. rewrite parse_path_scan. simpl. unfold step.
  rewrite Hm, Ho. simpl. now rewrite Hx, record_first_nil.
Qed.

Lemma parse_path_left tok other ty num t :
  terminal_regex tok = Some (ty, num, t) ->
  terminal_regex other = None ->
  external other (ty ++ num) = true ->
  parse_path [other; tok] = Ok [(ty ++ num, [(t, other)])].
Proof.
  intros Hm Ho Hx. rewrite parse_path_scan. simpl. unfold step.
  rewrite Hm, Ho. simpl. now rewrite Hx, record_first_nil.
Qed.

Lemma parse_records_neighbour data tok other ty num t :
  adjacent (split_arrow (strip data)) tok other ->
  terminal_regex tok = Some (ty, num, t) ->
  external other (ty ++ num) = true ->
  exists cs node,
    parse_connections data = Ok cs
    /\ recorded cs (ty ++ num) t = Some node
    /\ In (ty ++ num) (dict_keys cs).
Proof.
  intros Ha Hm Hx.
  pose proof (discoveries_complete _ _ _ _ _ _ None Ha Hm Hx) as HI.
  apply In_first_discovery in HI as [node Hf].
  exists (scan None (split_arrow (strip data)) []), node.
  split; [apply parse_connections_scan|].
  rewrite <- recorded_parse in Hf. split; [assumption|].
  apply recorded_In in Hf as (conns & Hc & _).
  change (ty ++ num) with (fst (ty ++ num, conns)).
  now apply in_map.
Qed.

Lemma terminal_regex_bad_letter ty num z :
  In ty comp_types ->
  num <> [] ->
  Forall (fun c => isdecimal c = true) num ->
  terminal_letter z = false ->
  terminal_regex (ty ++ num ++ [95%N; z]) = None.
Proof.
  intros Ht Hn HF Hz. rewrite terminal_regex_after_type by assumption.
  unfold id_and_terminal.
  rewrite span_app by (assumption || reflexivity).
  destruct num as [|d ds]; [contradiction|]. simpl. now rewrite Hz.
Qed.

Lemma comp_id_no_underscore comp : comp_id comp -> ~ In 95%N comp.
Proof.
  intros (ty & num & -> & Ht & _ & HF) HI.
  apply in_app_or in HI as [HI|HI].
  - destruct Ht as [<-|[<-|[<-|[<-|[]]]]]; simpl in HI;
      repeat (destruct HI as [HI|HI]; [discriminate|]); assumption.
  - rewrite Forall_forall in HF. apply HF in HI. discriminate.
Qed.

Lemma comp_id_of_match tok ty num t :
  terminal_regex tok = Some (ty, num, t) -> comp_id (ty ++ num).
Proof.
  intros H. apply terminal_regex_inv in H as (Ht & Hn & HF & _).
  now exists ty, num.
Qed.

(** ** The sort of the component names *)

Lemma str_ltb_irrefl a : str_ltb a a = false.
Proof.
  induction a as [|x a IH]; simpl; [reflexivity|].
  now rewrite N.ltb_irrefl, N.eqb_refl, IH.
Qed.

Lemma str_ltb_trans a : forall b c,
  str_ltb a b = true -> str_ltb b c = true -> str_ltb a c = true.
Proof.
  induction a as [|x a IH]; intros [|y b] [|z c]; simpl; try easy.
  destruct (N.ltb_spec x y), (N.eqb_spec x y), (N.ltb_spec y z),
    (N.eqb_spec y z), (N.ltb_spec x z), (N.eqb_spec x z);
    simpl; try lia; try easy.
  apply IH.
Qed.

Lemma str_ltb_total a : forall b,
  str_ltb a b = true \/ a = b \/ str_ltb b a = true.
Proof.
  induction a as [|x a IH]; intros [|y b]; simpl; auto.
  destruct (N.ltb_spec x y), (N.eqb_spec x y), (N.ltb_spec y x),
    (N.eqb_spec y x); simpl; try lia; auto.
  subst y. destruct (IH b) as [?|[->|?]]; auto.
Qed.

Lemma key_le_trans a b c : key_le a b -> key_le b c -> key_le a c.
Proof.
  unfold key_le. intros [H1|[E1 H1]] [H2|[E2 H2]].
  - left. now apply (str_ltb_trans _ (fst b)).
  - left. now rewrite <- E2.
  - left. now rewrite E1.
  - right. split; [congruence|lia].
Qed.

Lemma key_ltb_le a b : key_ltb a b = true -> key_le a b.
Proof.
  unfold key_ltb, key_le. intros H.
  apply orb_true_iff in H as [H|H]; [now left|].
  apply andb_true_iff in H as [H1 H2].
  apply str_eqb_eq in H1. apply Z.ltb_lt in H2. right. split; [assumption|lia].
Qed.

Lemma key_ltb_false_le a b : key_ltb b a = false -> key_le a b.
Proof.
  unfold key_ltb, key_le. intros H.
  apply orb_false_iff in H as [H1 H2].
  destruct (str_ltb_total (fst a) (fst b)) as [?|[E|?]];
    [now left| |congruence].
  right. split; [assumption|].
  rewrite E, str_eqb_refl in H2. simpl in H2. now apply Z.ltb_ge.
Qed.

Section Sort.
Variable A : Type.
Implicit Types (x : (str * Z) * A) (l : list ((str * Z) * A)).

Lemma insert_by_key_perm x l : Permutation (x :: l) (insert_by_key x l).
Proof.
  induction l as [|y l IH]; simpl; [reflexivity|].
  destruct (key_ltb (fst y) (fst x)); [|reflexivity].
  rewrite perm_swap. now constructor.
Qed.

Lemma insert_by_key_sorted x l :
  StronglySorted by_key l -> StronglySorted by_key (insert_by_key x l).
Proof.
  induction 1 as [|y l HS IH HF]; simpl.
  - repeat constructor.
  - destruct (key_ltb (fst y) (fst x)) eqn:E.
    + constructor; [assumption|].
      apply (Permutation_Forall (insert_by_key_perm x l)).
      constructor; [|assumption]. now apply key_ltb_le.
    + apply key_ltb_false_le in E.
      constructor; [now constructor|].
      constructor; [assumption|].
      revert HF. apply Forall_impl. intros z Hz.
      now apply (key_le_trans _ (fst y)).
Qed.

Lemma sort_by_key_perm l : Permutation l (sort_by_key l).
Proof.
  induction l as [|x l IH]; simpl; [reflexivity|].
  rewrite <- insert_by_key_perm. now constructor.
Qed.

Lemma sort_by_key_sorted l : StronglySorted by_key (sort_by_key l).
Proof.
  induction l as [|x l IH]; simpl; [constructor|].
  now apply insert_by_key_sorted.
Qed.
End Sort.

Lemma with_keys_inv names : forall ks,
  with_keys names = Ok ks ->
  map snd ks = names
  /\ Forall (fun kx => sort_key (snd kx) = Ok (fst kx)) ks.
Proof.
  induction names as [|x names IH]; simpl; intros ks.
  - intros [= <-]. auto.
  - destruct (sort_key x) as [k|e] eqn:Ek; [|discriminate]. simpl.
    destruct (with_keys names) as [ks'|e]; [|discriminate]. simpl.
    intros [= <-]. destruct (IH _ eq_refl) as [<- HF]. simpl. auto.
Qed.

Lemma with_keys_total names :
  Forall (fun x => exists k, sort_key x = Ok k) names ->
  exists ks, with_keys names = Ok ks.
Proof.
  induction 1 as [|x names [k Hk] _ [ks IH]]; simpl.
  - now exists [].
  - rewrite Hk, IH. simpl. eauto.
Qed.

Lemma sorted_comp_names_spec cs names :
  sorted_comp_names cs = Ok names ->
  Permutation (dict_keys cs) names /\ StronglySorted name_le names.
Proof.
  unfold sorted_comp_names.
  destruct (with_keys (dict_keys cs)) as [ks|e] eqn:E; [|discriminate].
  simpl. intros [= <-]. apply with_keys_inv in E as [<- HF]. split.
  - apply Permutation_map, sort_by_key_perm.
  - apply (Permutation_Forall (sort_by_key_perm _ ks)) in HF.
    pose proof (sort_by_key_sorted _ ks) as HS.
    induction HS as [|p l HS IH Hp]; simpl; [constructor|].
    inversion_clear HF as [|? ? Hk HF'].
    constructor; [now apply IH|].
    rewrite Forall_map. rewrite Forall_forall in *.
    intros q Hq. exists (fst p), (fst q).
    repeat split; [assumption|now apply HF'|now apply Hp].
Qed.

Lemma int_digits_total s :
  Forall (fun c => isdecimal c = true) s ->
  forall acc, exists n, int_digits acc s = Some n.
Proof.
  induction 1 as [|c s Hc _ IH]; intros acc; simpl; [eauto|].
  unfold isdecimal in Hc. destruct (todecimal c); [apply IH|discriminate].
Qed.

Lemma name_regex_comp_id ty num :
  In ty comp_types ->
  num <> [] ->
  Forall (fun c => isdecimal c = true) num ->
  name_regex (ty ++ num) = Some (ty, num).
Proof.
  intros Ht Hn HF. unfold name_regex.
  assert (Hup : Forall (fun c => upper_AZ c = true) ty /\ ty <> []).
  { destruct Ht as [<-|[<-|[<-|[<-|[]]]]];
      (split; [repeat constructor|discriminate]). }
  destruct Hup as [Hup Hne].
  rewrite (span_app upper_AZ ty num Hup).
  - rewrite <- (app_nil_r num) at 1.
    rewrite (span_app isdecimal num [] HF I).
    destruct ty; [contradiction|]. now destruct num.
  - destruct num as [|d ds]; [exact I|].
    inversion_clear HF as [|? ? Hd _]. now apply isdecimal_not_upper.
Qed.

Lemma sorted_comp_names_keyed cs names :
  sorted_comp_names cs = Ok names ->
  Forall (fun x => exists k, sort_key x = Ok k) names.
Proof.
  unfold sorted_comp_names.
  destruct (with_keys (dict_keys cs)) as [ks|e] eqn:E; [|discriminate].
  simpl. intros [= <-]. apply with_keys_inv in E as [_ HF].
  apply (Permutation_Forall (sort_by_key_perm _ ks)) in HF.
  rewrite Forall_map. revert HF. apply Forall_impl. intros kx H. eauto.
Qed.

Lemma sort_key_prefix x k : sort_key x = Ok k -> comp_type_prefix x <> [].
Proof.
  unfold sort_key, name_regex, comp_type_prefix.
  destruct (span upper_AZ x) as [letters rest].
  destruct (span isdecimal rest) as [digits rest'].
  destruct letters; [discriminate|]. discriminate.
Qed.

Lemma make_cell_total cs nm x :
  comp_type_prefix x <> [] -> exists c, make_cell cs nm x = Ok c.
Proof.
  intros H. unfold make_cell.
  destruct (comp_type_prefix x); [contradiction|eauto].
Qed.

Lemma cells_loop_keys cs nm names : forall cells,
  Forall (fun x => comp_type_prefix x <> []) names ->
  NoDup (dict_keys cells ++ names) ->
  exists cells',
    cells_loop cs nm names cells = Ok cells'
    /\ dict_keys cells' = dict_keys cells ++ names.
Proof.
  induction names as [|x names IH]; intros cells HF ND; simpl.
  - exists cells. now rewrite app_nil_r.
  - inversion_clear HF as [|? ? Hx HF'].
    destruct (make_cell_total cs nm x Hx) as [c Hc]. rewrite Hc. simpl.
    assert (Hk : dict_keys (dict_set cells x c) = dict_keys cells ++ [x]).
    { rewrite dict_keys_set. unfold dict_mem.
      destruct (dict_get cells x) as [c0|] eqn:E; [|reflexivity].
      apply NoDup_remove_2 in ND. exfalso. apply ND.
      apply in_or_app. left. apply dict_get_In in E.
      change x with (fst (x, c0)). now apply in_map. }
    destruct (IH (dict_set cells x c) HF') as (cells' & H1 & H2).
    { rewrite Hk, <- app_assoc. exact ND. }
    exists cells'. split; [assumption|]. now rewrite H2, Hk, <- app_assoc.
Qed.

(** ** The claims *)

(** C1: every terminal of every component has at most one node name,
    and it is the first admissible discovery of the pass: what
    [parse_connections] records for a terminal is the first entry for
    it in the list of discoveries, which runs by position and, at a
    position, has the left neighbour before the right one; at a
    position whose left neighbour is admissible and whose terminal is
    still free, the left neighbour is what gets recorded, whatever the
    right one is; no iteration, and so no later occurrence of the
    terminal, changes what is recorded; parsing "A->R1_P->B" gives R1
    with P connected to A, also when "->R1_P->B" follows again. *)
Theorem C1_first_discovery_wins :
  (forall data, exists cs,
      parse_connections data = Ok cs
      /\ NoDup (dict_keys cs)
      /\ Forall (fun kv => NoDup (dict_keys (snd kv))) cs
      /\ forall comp term,
           recorded cs comp term
           = first_discovery
               (discoveries None (split_arrow (strip data))) comp term)
  /\ (forall pre left tok right post cs ty num t,
        terminal_regex tok = Some (ty, num, t) ->
        external left (ty ++ num) = true ->
        recorded cs (ty ++ num) t = None ->
        exists cs',
          visit (pre ++ left :: tok :: right :: post)
                (Z.of_nat (length pre) + 1) tok cs = Ok cs'
          /\ recorded cs' (ty ++ num) t = Some left)
  /\ (forall path i rest cs cs' comp term node,
        enumerate_loop path i rest cs = Ok cs' ->
        recorded cs comp term = Some node ->
        recorded cs' comp term = Some node)
  /\ parse_connections (pystr "A->R1_P->B")
     = Ok [(pystr "R1", [(pystr "P", pystr "A")])]
  /\ parse_connections (pystr "A->R1_P->B->R1_P->B")
     = Ok [(pystr "R1", [(pystr "P", pystr "A")])].
Proof.
  split; [|split; [|split; [|split]]].
  - intros data. exists (scan None (split_arrow (strip data)) []).
    destruct (@parse_connections_inv data _ (parse_connections_scan data))
      as [_ [ND HF]].
    split; [apply parse_connections_scan|].
    split; [assumption|]. split.
    + revert HF. apply Forall_impl. now intros kv [_ H].
    + intros comp term. apply recorded_parse.
  - intros pre left tok right post cs ty num t Hm Hx Hr.
    replace (pre ++ left :: tok :: right :: post)
      with ((pre ++ [left]) ++ tok :: right :: post)
      by now rewrite <- app_assoc.
    replace (Z.of_nat (length pre) + 1)%Z
      with (Z.of_nat (length (pre ++ [left])))
      by (rewrite length_app; simpl; lia).
    rewrite visit_step, last_error_snoc. eexists. split; [reflexivity|].
    rewrite recorded_step, Hr. unfold found_at. rewrite Hm.
    simpl. rewrite Hx. unfold first_discovery, is_for. simpl.
    now rewrite !str_eqb_refl.
  - intros path i rest cs cs' comp term node.
    apply enumerate_loop_keeps.
  - vm_compute. reflexivity.
  - vm_compute. reflexivity.
Qed.

(** C2: a neighbour that equals the component's bare identifier, or
    that is itself a terminal token of the same component, is never
    what [parse_connections] records for a terminal of that
    component; parsing "NM1_D->NM1_G->X" gives the one component NM1,
    with no entry for D and with G connected to X. *)
Theorem C2_same_component_neighbour_excluded :
  (forall data cs comp term node,
      parse_connections data = Ok cs ->
      recorded cs comp term = Some node ->
      node <> comp /\ is_part_of_same_comp node comp = false)
  /\ parse_connections (pystr "NM1_D->NM1_G->X")
     = Ok [(pystr "NM1", [(pystr "G", pystr "X")])]
  /\ recorded [(pystr "NM1", [(pystr "G", pystr "X")])]
       (pystr "NM1") (pystr "D") = None
  /\ recorded [(pystr "NM1", [(pystr "G", pystr "X")])]
       (pystr "NM1") (pystr "G") = Some (pystr "X").
Proof.
  split; [|split; [|split]]; try (vm_compute; reflexivity).
  intros data cs comp term node Hp Hr.
  apply parse_connections_inv in Hp as [-> _].
  apply recorded_parse_inv in Hr as (part & ty & num & _ & _ & _ & Hx).
  unfold external in Hx. apply andb_true_iff in Hx as [H1 H2].
  apply negb_true_iff in H1, H2. split; [|assumption].
  now apply str_eqb_neq.
Qed.

(** C3 (amended): for every input, every component identifier of the
    returned map is a type code NM, PM, R or C followed by decimal
    digits, and every terminal code of its inner mapping is one of
    the six letters D, G, S, B, P, N of the pattern, whatever the
    type of the component. *)
Theorem C3_keys_match_the_pattern :
  forall data cs comp conns,
    parse_connections data = Ok cs ->
    In (comp, conns) cs ->
    comp_id comp
    /\ forall term node,
         In (term, node) conns ->
         exists l, term = [l] /\ terminal_letter l = true.
Proof.
  intros data cs comp conns Hp Hc. split.
  - now apply (parse_key_comp_id data cs comp conns).
  - intros term node Ht.
    now apply (parse_terminal_letter data cs comp conns term node).
Qed.

(** C5: [parse_connections] never raises: on every input string it
    returns a component map; on the empty string, on a string none of
    whose tokens matches the terminal pattern, and on a string of a
    single token, that map is empty. *)
Theorem C5_never_raises :
  (forall data, exists cs, parse_connections data = Ok cs)
  /\ parse_connections [] = Ok []
  /\ (forall data,
        Forall (fun tok => terminal_regex tok = None)
               (split_arrow (strip data)) ->
        parse_connections data = Ok [])
  /\ (forall data tok,
        split_arrow (strip data) = [tok] ->
        parse_connections data = Ok []).
Proof.
  split; [|split; [|split]].
  - intros data. eexists. apply parse_connections_scan.
  - reflexivity.
  - intros data HF. rewrite parse_connections_scan.
    now rewrite scan_no_terminal.
  - intros data tok HE. rewrite parse_connections_scan, HE.
    simpl. unfold step.
    now destruct (terminal_regex tok) as [[[ty num] t]|].
Qed.

(** C8: every component identifier of the returned map has a
    non-empty inner mapping; a component whose terminal tokens have
    excluded neighbours only is no key at all: parsing
    "NM1_D->NM1_G" returns the empty map. *)
Theorem C8_no_empty_component :
  (forall data cs comp conns,
      parse_connections data = Ok cs ->
      In (comp, conns) cs ->
      conns <> [])
  /\ parse_connections (pystr "NM1_D->NM1_G") = Ok [].
Proof.
  split; [|vm_compute; reflexivity].
  intros data cs comp conns Hp Hc.
  apply parse_connections_inv in Hp as [_ [_ HF]].
  rewrite Forall_forall in HF. now destruct (HF _ Hc).
Qed.

(** C4 (amended): a token made of a type code, decimal digits, an
    underscore and one letter outside the letter class D, G, S, B, P,
    N of the pattern is no terminal match: its own iteration changes
    nothing, no inner mapping ever has that letter as a key, and next
    to a terminal token it is recorded as the connected node; so it
    is with "R1_Z", which "NM1_D->R1_Z" records as the node of D. *)
Theorem C4_unknown_letter_is_a_node_name :
  (forall ty num z,
      In ty comp_types ->
      num <> [] ->
      Forall (fun c => isdecimal c = true) num ->
      terminal_letter z = false ->
      let tok := ty ++ num ++ pystr "_" ++ [z] in
      terminal_regex tok = None
      /\ (forall path i cs, visit path i tok cs = Ok cs)
      /\ (forall data cs comp conns node,
            parse_connections data = Ok cs ->
            In (comp, conns) cs -> ~ In ([z], node) conns)
      /\ (forall term ty' num' t,
            terminal_regex term = Some (ty', num', t) ->
            parse_path [term; tok] = Ok [(ty' ++ num', [(t, tok)])]
            /\ parse_path [tok; term] = Ok [(ty' ++ num', [(t, tok)])]))
  /\ terminal_regex (pystr "R1_Z") = None
  /\ parse_connections (pystr "NM1_D->R1_Z")
     = Ok [(pystr "NM1", [(pystr "D", pystr "R1_Z")])].
Proof.
  split; [|split; vm_compute; reflexivity].
  intros ty num z Ht Hn HF Hz tok.
  assert (Hm : terminal_regex tok = None)
    by now apply terminal_regex_bad_letter.
  split; [assumption|]. split; [|split].
  - intros path i cs. now apply visit_no_match.
  - intros data cs comp conns node Hp Hc HI.
    destruct (parse_terminal_letter _ _ _ _ _ _ Hp Hc HI)
      as (l & [= <-] & Hl).
    congruence.
  - intros term ty' num' t Hmt.
    assert (Hx : external tok (ty' ++ num') = true).
    { apply external_no_match; [assumption|]. intros HE.
      apply (comp_id_no_underscore (ty' ++ num')).
      - now apply (comp_id_of_match term ty' num' t).
      - rewrite <- HE. unfold tok.
        apply in_or_app. right. apply in_or_app. right. now left. }
    split; [now apply parse_path_right|now apply parse_path_left].
Qed.


(** C9: the recorded node name can be the empty string: a leading
    separator, or two separators in a row, make an empty token, which
    passes the neighbour test of every component and is recorded as
    it is; parsing "->NM1_D" gives NM1 with D connected to the empty
    string. *)
Theorem C9_empty_node_name :
  split_arrow (strip (pystr "->NM1_D")) = [[]; pystr "NM1_D"]
  /\ parse_connections (pystr "->NM1_D")
     = Ok [(pystr "NM1", [(pystr "D", [])])]
  /\ split_arrow (strip (pystr "NM1_D->->X")) = [pystr "NM1_D"; []; pystr "X"]
  /\ parse_connections (pystr "NM1_D->->X")
     = Ok [(pystr "NM1", [(pystr "D", [])])]
  /\ (forall comp, comp_id comp -> external [] comp = true)
  /\ (forall term ty num t,
        terminal_regex term = Some (ty, num, t) ->
        parse_path [[]; term] = Ok [(ty ++ num, [(t, [])])]
        /\ parse_path [term; []] = Ok [(ty ++ num, [(t, [])])]).
Proof.
  assert (Hx : forall comp, comp_id comp -> external [] comp = true).
  { intros comp (ty & num & -> & Ht & _). apply external_no_match.
    - reflexivity.
    - now destruct Ht as [<-|[<-|[<-|[<-|[]]]]]. }
  repeat split; try (vm_compute; reflexivity).
  - assumption.
  - apply parse_path_left; [assumption|reflexivity|].
    now apply Hx, (comp_id_of_match term ty num t).
  - apply parse_path_right; [assumption|reflexivity|].
    now apply Hx, (comp_id_of_match term ty num t).
Qed.

(** C10: the component identifier is the type code followed by the
    matched digits as they are written, so "NM01_D" and "NM1_G", each
    next to an admissible neighbour, give the two components NM01 and
    NM1, although the two ids are the same integer. *)
Theorem C10_leading_zeros_make_distinct_components :
  (forall ty num l,
      In ty comp_types ->
      num <> [] ->
      Forall (fun c => isdecimal c = true) num ->
      terminal_letter l = true ->
      terminal_regex (ty ++ num ++ pystr "_" ++ [l]) = Some (ty, num, [l]))
  /\ (forall data nb nb',
        adjacent (split_arrow (strip data)) (pystr "NM01_D") nb ->
        external nb (pystr "NM01") = true ->
        adjacent (split_arrow (strip data)) (pystr "NM1_G") nb' ->
        external nb' (pystr "NM1") = true ->
        exists cs,
          parse_connections data = Ok cs
          /\ In (pystr "NM01") (dict_keys cs)
          /\ In (pystr "NM1") (dict_keys cs)
          /\ recorded cs (pystr "NM01") (pystr "D") <> None
          /\ recorded cs (pystr "NM1") (pystr "G") <> None)
  /\ pystr "NM01" <> pystr "NM1"
  /\ int_digits 0 (pystr "01") = Some 1%N
  /\ int_digits 0 (pystr "1") = Some 1%N
  /\ parse_connections (pystr "X->NM01_D->Y->NM1_G->Z")
     = Ok [(pystr "NM01", [(pystr "D", pystr "X")]);
           (pystr "NM1", [(pystr "G", pystr "Y")])].
Proof.
  split; [|split; [|split; [|split; [|split]]]];
    try (vm_compute; reflexivity); try discriminate.
  - intros ty num l Ht Hn HF Hl.
    now apply (terminal_regex_intro ty num l []).
  - intros data nb nb' Ha Hx Ha' Hx'.
    destruct (parse_records_neighbour data (pystr "NM01_D") nb
                (pystr "NM") (pystr "01") (pystr "D") Ha eq_refl Hx)
      as (cs & node & Hp & Hr & Hk).
    destruct (parse_records_neighbour data (pystr "NM1_G") nb'
                (pystr "NM") (pystr "1") (pystr "G") Ha' eq_refl Hx')
      as (cs' & node' & Hp' & Hr' & Hk').
    rewrite Hp in Hp'. injection Hp' as <-.
    change (pystr "NM" ++ pystr "01") with (pystr "NM01") in Hr, Hk.
    change (pystr "NM" ++ pystr "1") with (pystr "NM1") in Hr', Hk'.
    exists cs. repeat split; try assumption; congruence.
Qed.

(** ** Further properties of the path interpreter *)

(** *** Whitespace and tokens *)

Lemma lstrip_spaces ws s :
  Forall (fun c => isspace c = true) ws -> lstrip (ws ++ s) = lstrip s.
Proof.
  induction 1 as [|c ws Hc _ IH]; simpl; [reflexivity|]. now rewrite Hc.
Qed.

Lemma lstrip_app s ws :
  Forall (fun c => isspace c = true) ws ->
  lstrip (s ++ ws) = lstrip s ++ ws
  \/ (lstrip (s ++ ws) = [] /\ lstrip s = []).
Proof.
  intros Hws. induction s as [|c s IH]; simpl.
  - right. split; [|reflexivity].
    rewrite <- (app_nil_r ws). now rewrite lstrip_spaces.
  - destruct (isspace c); [assumption|now left].
Qed.

Lemma rstrip_spaces s ws :
  Forall (fun c => isspace c = true) ws -> rstrip (s ++ ws) = rstrip s.
Proof.
  intros Hws. unfold rstrip. rewrite rev_app_distr.
  rewrite lstrip_spaces; [reflexivity|]. now apply Forall_rev.
Qed.

Lemma strip_outer ws data ws' :
  Forall (fun c => isspace c = true) ws ->
  Forall (fun c => isspace c = true) ws' ->
  strip (ws ++ data ++ ws') = strip data.
Proof.
  intros Hws Hws'. unfold strip. rewrite lstrip_spaces by assumption.
  destruct (lstrip_app data ws' Hws') as [->|[-> ->]]; [|reflexivity].
  now apply rstrip_spaces.
Qed.

Lemma str_ind2 (P : str -> Prop) :
  P [] ->
  (forall c, P [c]) ->
  (forall c d s, P s -> P (d :: s) -> P (c :: d :: s)) ->
  forall s, P s.
Proof.
  intros H0 H1 H2 s.
  assert (H : P s /\ forall c, P (c :: s)); [|now destruct H].
  induction s as [|d s [IH1 IH2]]; [now split|].
  split; [apply IH2|]. intros c. now apply H2.
Qed.

Lemma split_arrow_cut (s : str) :
  split_arrow ((45%N : char) :: (62%N : char) :: s) = [] :: split_arrow s.
Proof. reflexivity. Qed.

Lemma split_arrow_eq (c : char) (s : str) :
  split_arrow (c :: s)
  = match s with
    | d :: s'' =>
        if (c =? 45)%N && (d =? 62)%N then [] :: split_arrow s''
        else match split_arrow s with
             | tok :: toks => (c :: tok) :: toks
             | [] => [[c]]
             end
    | [] =>
        match split_arrow s with
        | tok :: toks => (c :: tok) :: toks
        | [] => [[c]]
        end
    end.
Proof. now destruct s. Qed.

Lemma split_arrow_nonempty s : split_arrow s <> [].
Proof.
  destruct s as [|c s]; [discriminate|]. rewrite split_arrow_eq.
  destruct s as [|d s'].
  - now destruct (split_arrow []).
  - destruct ((c =? 45)%N && (d =? 62)%N); [discriminate|].
    now destruct (split_arrow (d :: s')).
Qed.

Lemma split_arrow_keep (c d : char) (s : str) :
  (c =? 45)%N && (d =? 62)%N = false ->
  exists tok toks,
    split_arrow (d :: s) = tok :: toks
    /\ split_arrow (c :: d :: s) = (c :: tok) :: toks.
Proof.
  intros E. destruct (split_arrow (d :: s)) as [|tok toks] eqn:Es.
  - now apply split_arrow_nonempty in Es.
  - exists tok, toks. split; [reflexivity|].
    now rewrite split_arrow_eq, E, Es.
Qed.

Lemma join_arrow_cons (c : char) (tok : str) toks :
  join_arrow ((c :: tok) :: toks) = c :: join_arrow (tok :: toks).
Proof. now destruct toks. Qed.

Lemma join_split_arrow (s : str) : join_arrow (split_arrow s) = s.
Proof.
  induction s as [|c|c d s IH1 IH2] using str_ind2; try reflexivity.
  destruct ((c =? 45)%N && (d =? 62)%N) eqn:E.
  - apply andb_true_iff in E as [Ec Ed].
    apply N.eqb_eq in Ec, Ed. subst c d. rewrite split_arrow_cut.
    destruct (split_arrow s) as [|t ts] eqn:Es;
      [now apply split_arrow_nonempty in Es|].
    simpl in *. now rewrite IH1.
  - destruct (split_arrow_keep c d s E) as (tok & toks & Hs & Hk).
      unfold char in *. rewrite Hk.
    rewrite join_arrow_cons. rewrite Hs in IH2. now rewrite IH2.
Qed.

Lemma split_arrow_app (a : str) : forall b : str,
  split_arrow (a ++ pystr "->" ++ b) = split_arrow a ++ split_arrow b.
Proof.
  induction a as [|c|c d s IH1 IH2] using str_ind2; intros b.
  - reflexivity.
  - change ([c] ++ pystr "->" ++ b) with (c :: 45%N :: 62%N :: b).
    assert (E : (c =? 45)%N && (45 =? 62)%N = false)
      by (apply andb_false_iff; now right).
    destruct (split_arrow_keep c 45%N (62%N :: b) E) as (tok & toks & Hs & Hk).
    unfold char in *. rewrite Hk.
    rewrite split_arrow_cut in Hs. now injection Hs as <- <-.
  - destruct ((c =? 45)%N && (d =? 62)%N) eqn:E.
    + apply andb_true_iff in E as [Ec Ed].
      apply N.eqb_eq in Ec, Ed. subst c d.
      change ((45%N :: 62%N :: s) ++ pystr "->" ++ b)
        with (45%N :: 62%N :: (s ++ pystr "->" ++ b)).
      now rewrite !split_arrow_cut, IH1.
    + change ((c :: d :: s) ++ pystr "->" ++ b)
        with (c :: d :: (s ++ pystr "->" ++ b)).
      destruct (split_arrow_keep c d (s ++ pystr "->" ++ b) E)
        as (tok & toks & Hs & Hk).
      unfold char in *. rewrite Hk.
      destruct (split_arrow_keep c d s E) as (tok' & toks' & Hs' & Hk').
      unfold char in *. rewrite Hk'.
      change (d :: s ++ pystr "->" ++ b)
        with ((d :: s) ++ pystr "->" ++ b) in Hs.
      rewrite IH2, Hs' in Hs. now injection Hs as <- <-.
Qed.

Lemma split_arrow_tokens (s : str) :
  Forall (fun tok => split_arrow tok = [tok]) (split_arrow s).
Proof.
  induction s as [|c|c d s IH1 IH2] using str_ind2.
  - now repeat constructor.
  - now repeat constructor.
  - destruct ((c =? 45)%N && (d =? 62)%N) eqn:E.
    + apply andb_true_iff in E as [Ec Ed].
      apply N.eqb_eq in Ec, Ed. subst c d. rewrite split_arrow_cut.
      now constructor.
    + destruct (split_arrow_keep c d s E) as (tok & toks & Hs & Hk).
      unfold char in *. rewrite Hk.
      rewrite Hs in IH2. inversion_clear IH2 as [|? ? Ht Hts].
      constructor; [|assumption].
      destruct tok as [|x t]; [reflexivity|].
      assert (x = d).
      { rewrite split_arrow_eq in Hs. destruct s as [|e s].
        - destruct (split_arrow []); now injection Hs as <- _ _.
        - destruct ((d =? 45)%N && (e =? 62)%N); [discriminate|].
          destruct (split_arrow (e :: s)); now injection Hs as <- _ _. }
      subst x.
      destruct (split_arrow_keep c d t E) as (tok' & toks' & Hs' & Hk').
      unfold char in *. rewrite Hk'.
      rewrite Ht in Hs'. now injection Hs' as <- <-.
Qed.

Lemma split_join_arrow tokens :
  tokens <> [] ->
  Forall (fun tok => split_arrow tok = [tok]) tokens ->
  split_arrow (join_arrow tokens) = tokens.
Proof.
  intros Hne HF. induction HF as [|tok tokens Ht HF IH]; [contradiction|].
  destruct tokens as [|tok' tokens]; [exact Ht|].
  change (join_arrow (tok :: tok' :: tokens))
    with (tok ++ pystr "->" ++ join_arrow (tok' :: tokens)).
  rewrite split_arrow_app, Ht, IH; [reflexivity|discriminate].
Qed.

(** *** Connections and adjacency *)

Lemma adjacent_cons p path tok other :
  adjacent path tok other -> adjacent (p :: path) tok other.
Proof.
  intros (pre & post & [-> | ->]); exists (p :: pre), post; auto.
Qed.

Lemma discoveries_adjacent rest : forall prev c t nb,
  In (c, t, nb) (discoveries prev rest) ->
  exists tok ty num,
    adjacent (with_prev prev rest) tok nb
    /\ terminal_regex tok = Some (ty, num, t)
    /\ c = ty ++ num /\ external nb c = true.
Proof.
  induction rest as [|part rest IH]; intros prev c t nb; simpl; [easy|].
  intros HI. apply in_app_or in HI as [HI|HI].
  - unfold found_at in HI.
    destruct (terminal_regex part) as [[[ty num] term]|] eqn:E; [|easy].
    apply in_app_or in HI as [HI|HI].
    + destruct prev as [p|]; simpl in HI; [|easy].
      destruct (external p (ty ++ num)) eqn:Ex; [|easy].
      destruct HI as [[= <- <- <-]|[]].
      exists part, ty, num. repeat split; try assumption.
      exists [], rest. now right.
    + destruct rest as [|q rest]; simpl in HI; [easy|].
      destruct (external q (ty ++ num)) eqn:Ex; [|easy].
      destruct HI as [[= <- <- <-]|[]].
      exists part, ty, num. repeat split; try assumption.
      destruct prev as [p|]; [exists [p], rest|exists [], rest]; now left.
  - destruct (IH _ _ _ _ HI) as (tok & ty & num & Ha & Hrest).
    exists tok, ty, num. split; [|assumption].
    destruct prev as [p|]; [now apply adjacent_cons|assumption].
Qed.

Lemma discoveries_app p : forall prev q,
  exists extra, discoveries prev (p ++ q) = discoveries prev p ++ extra.
Proof.
  induction p as [|part p IH]; intros prev q; simpl.
  - now exists (discoveries prev q).
  - destruct (IH (Some part) q) as [extra ->].
    destruct p as [|part' p]; simpl hd_error.
    + unfold found_at.
      destruct (terminal_regex part) as [[[ty num] t]|].
      * exists (seen (ty ++ num) t (hd_error q) ++ discoveries (Some part) []
                ++ extra).
        simpl. now rewrite !app_nil_r, <- !app_assoc.
      * now exists extra.
    + exists extra. now rewrite app_assoc.
Qed.

Lemma match_has_underscore tok ty num t :
  terminal_regex tok = Some (ty, num, t) -> In 95%N tok.
Proof.
  intros H.
  apply terminal_regex_inv in H as (_ & _ & _ & l & tail & _ & _ & _ & ->).
  apply in_or_app. right. apply in_or_app. right. now left.
Qed.

Lemma external_terminal tok tok' ty num t ty' num' t' :
  terminal_regex tok = Some (ty, num, t) ->
  terminal_regex tok' = Some (ty', num', t') ->
  external tok' (ty ++ num) = negb (str_eqb (ty' ++ num') (ty ++ num)).
Proof.
  intros Hm Hm'. unfold external, is_part_of_same_comp. rewrite Hm'.
  assert (Hn : str_eqb tok' (ty ++ num) = false).
  { apply str_eqb_neq. intros ->.
    apply (comp_id_no_underscore (ty ++ num)).
    - now apply (comp_id_of_match tok ty num t).
    - now apply (match_has_underscore _ ty' num' t'). }
  now rewrite Hn.
Qed.

Lemma keys_among_terminal_tokens path :
  length (scan None path []) <= length (filter is_terminal_token path).
Proof.
  pose (comp_of := fun tok : str =>
          match terminal_regex tok with
          | Some (ty, num, _) => [ty ++ num]
          | None => []
          end).
  assert (Hlen : length (flat_map comp_of path)
                 = length (filter is_terminal_token path)).
  { induction path as [|tok path IH]; [reflexivity|].
    simpl. rewrite length_app, IH. unfold comp_of, is_terminal_token.
    now destruct (terminal_regex tok) as [[[ty num] t]|]. }
  rewrite <- Hlen, <- (length_map fst).
  pose proof (well_formed_scan path None [] well_formed_nil) as WF.
  apply NoDup_incl_length; [apply WF|].
  intros c HI. apply in_map_iff in HI as ([c' conns] & <- & HI).
  destruct (key_has_terminal _ _ _ WF HI) as (t & v & _ & Hr).
  apply recorded_parse_inv in Hr as (part & ty & num & Hp & Hm & -> & _).
  apply in_flat_map. exists part. split; [assumption|].
  unfold comp_of. rewrite Hm. now left.
Qed.

(** X1: whitespace around the path does not count: with any run of
    whitespace before and after it, a string parses to the same
    result. *)
Theorem X1_outer_whitespace_ignored :
  forall ws data ws',
    Forall (fun c => isspace c = true) ws ->
    Forall (fun c => isspace c = true) ws' ->
    parse_connections (ws ++ data ++ ws') = parse_connections data.
Proof.
  intros ws data ws' Hws Hws'. unfold parse_connections.
  now rewrite strip_outer.
Qed.

(** X2: the tokens of a string, joined by the separator, give the
    string back, and no token contains the separator; tokens without
    the separator, joined and split again, come back as they were; the
    tokens of two strings joined by the separator are the tokens of
    the first followed by those of the second. *)
Theorem X2_split_and_join :
  (forall s : str,
      join_arrow (split_arrow s) = s
      /\ split_arrow s <> []
      /\ Forall (fun tok => split_arrow tok = [tok]) (split_arrow s))
  /\ (forall tokens,
        tokens <> [] ->
        Forall (fun tok => split_arrow tok = [tok]) tokens ->
        split_arrow (join_arrow tokens) = tokens)
  /\ (forall a b : str,
        split_arrow (a ++ pystr "->" ++ b) = split_arrow a ++ split_arrow b).
Proof.
  split; [|split].
  - intros s. split; [apply join_split_arrow|].
    split; [apply split_arrow_nonempty|apply split_arrow_tokens].
  - apply split_join_arrow.
  - intros a b. apply split_arrow_app.
Qed.

(** X3: a recorded node is a token next to a terminal token of that
    terminal in the path, and one that passed the neighbour test; a
    terminal has a node exactly when some occurrence of it has such a
    neighbour. *)
Theorem X3_connections_are_adjacencies :
  forall data cs comp term,
    parse_connections data = Ok cs ->
    (forall node,
        recorded cs comp term = Some node ->
        exists tok ty num,
          adjacent (split_arrow (strip data)) tok node
          /\ terminal_regex tok = Some (ty, num, term)
          /\ comp = ty ++ num /\ external node comp = true)
    /\ (recorded cs comp term <> None
        <-> exists tok other ty num,
              adjacent (split_arrow (strip data)) tok other
              /\ terminal_regex tok = Some (ty, num, term)
              /\ comp = ty ++ num /\ external other comp = true).
Proof.
  intros data cs comp term Hp.
  apply parse_connections_inv in Hp as [-> _].
  assert (Hnode : forall node,
    recorded (scan None (split_arrow (strip data)) []) comp term = Some node ->
    exists tok ty num,
      adjacent (split_arrow (strip data)) tok node
      /\ terminal_regex tok = Some (ty, num, term)
      /\ comp = ty ++ num /\ external node comp = true).
  { intros node Hr. rewrite recorded_parse in Hr.
    apply first_discovery_In in Hr.
    now apply discoveries_adjacent in Hr. }
  split; [exact Hnode|]. split.
  - intros Hr.
    destruct (recorded (scan None (split_arrow (strip data)) []) comp term)
      as [node|] eqn:E; [|contradiction].
    destruct (Hnode node eq_refl) as (tok & ty & num & H).
    now exists tok, node, ty, num.
  - intros (tok & other & ty & num & Ha & Hm & -> & Hx).
    rewrite recorded_parse.
    pose proof (discoveries_complete _ _ _ _ _ _ None Ha Hm Hx) as HI.
    apply In_first_discovery in HI as [v ->]. discriminate.
Qed.

(** X4: a terminal token passes the neighbour test of the terminals
    of the other components, and of those only; so wherever two
    terminal tokens of different components stand next to each other
    in a path, both terminals get a node; in the path of just these
    two tokens each token is recorded, as it is written, as the node
    of the other, and two terminal tokens of the same component give
    the empty map. *)
Theorem X4_adjacent_terminal_tokens :
  forall tok tok' ty num t ty' num' t',
    terminal_regex tok = Some (ty, num, t) ->
    terminal_regex tok' = Some (ty', num', t') ->
    external tok' (ty ++ num) = negb (str_eqb (ty' ++ num') (ty ++ num))
    /\ (ty ++ num <> ty' ++ num' ->
        forall data cs,
          parse_connections data = Ok cs ->
          adjacent (split_arrow (strip data)) tok tok' ->
          recorded cs (ty ++ num) t <> None
          /\ recorded cs (ty' ++ num') t' <> None)
    /\ parse_path [tok; tok']
       = (if str_eqb (ty ++ num) (ty' ++ num') then Ok []
          else Ok [(ty ++ num, [(t, tok')]); (ty' ++ num', [(t', tok)])]).
Proof.
  intros tok tok' ty num t ty' num' t' Hm Hm'.
  pose proof (external_terminal tok tok' ty num t ty' num' t' Hm Hm') as Hx.
  pose proof (external_terminal tok' tok ty' num' t' ty num t Hm' Hm) as Hx'.
  split; [exact Hx|]. split.
  - intros Hne data cs Hp Ha.
    assert (E : str_eqb (ty' ++ num') (ty ++ num) = false)
      by (apply str_eqb_neq; congruence).
    assert (E' : str_eqb (ty ++ num) (ty' ++ num') = false)
      by (now apply str_eqb_neq).
    rewrite E in Hx. rewrite E' in Hx'.
    assert (Ha' : adjacent (split_arrow (strip data)) tok' tok).
    { destruct Ha as (pre & post & [H|H]); exists pre, post; auto. }
    destruct (parse_records_neighbour data tok tok' ty num t Ha Hm Hx)
      as (cs1 & node & Hp1 & Hr1 & _).
    destruct (parse_records_neighbour data tok' tok ty' num' t' Ha' Hm' Hx')
      as (cs2 & node' & Hp2 & Hr2 & _).
    rewrite Hp in Hp1, Hp2. injection Hp1 as <-. injection Hp2 as <-.
    split; congruence.
  - rewrite parse_path_scan. simpl. unfold step. rewrite Hm, Hm'. simpl.
    rewrite Hx, Hx'.
    destruct (str_eqb (ty ++ num) (ty' ++ num')) eqn:E.
    + apply str_eqb_eq in E. rewrite E, str_eqb_refl. reflexivity.
    + assert (E' : str_eqb (ty' ++ num') (ty ++ num) = false).
      { apply str_eqb_neq. apply str_eqb_neq in E. congruence. }
      rewrite E'. simpl. rewrite record_first_nil.
      unfold record_first, defaultdict_getitem. simpl.
      rewrite E. simpl. rewrite E, str_eqb_refl. simpl.
      now rewrite E, str_eqb_refl.
Qed.

(** X5: a longer path keeps what a shorter one gives: every component
    and every connection of a path is a component and a connection of
    the path with more tokens after it. *)
Theorem X5_more_tokens_keep_connections :
  forall path more cs cs',
    parse_path path = Ok cs ->
    parse_path (path ++ more) = Ok cs' ->
    (forall comp term node,
        recorded cs comp term = Some node ->
        recorded cs' comp term = Some node)
    /\ incl (dict_keys cs) (dict_keys cs').
Proof.
  intros path more cs cs'. rewrite !parse_path_scan.
  intros [= <-] [= <-].
  assert (Hkeep : forall comp term node,
    recorded (scan None path []) comp term = Some node ->
    recorded (scan None (path ++ more) []) comp term = Some node).
  { intros comp term node. rewrite !recorded_parse.
    destruct (discoveries_app path None more) as [extra ->].
    rewrite first_discovery_app. now intros ->. }
  split; [exact Hkeep|].
  intros c HI. apply in_map_iff in HI as ([c' conns] & <- & HI).
  pose proof (well_formed_scan path None [] well_formed_nil) as WF.
  destruct (key_has_terminal _ _ _ WF HI) as (t & v & _ & Hr).
  apply Hkeep, recorded_In in Hr as (conns' & Hc & _).
  apply in_map_iff. now exists (c', conns').
Qed.

(** X6: a component of the result has at most six terminals, and there
    are at most as many components as terminal tokens in the path. *)
Theorem X6_sizes :
  forall data cs,
    parse_connections data = Ok cs ->
    length cs <= length (filter is_terminal_token (split_arrow (strip data)))
    /\ forall comp conns, In (comp, conns) cs -> length conns <= 6.
Proof.
  intros data cs Hp. split.
  - apply parse_connections_inv in Hp as [-> _].
    apply keys_among_terminal_tokens.
  - intros comp conns Hc.
    pose proof Hp as Hp'. apply parse_connections_inv in Hp' as [_ [_ HF]].
    rewrite Forall_forall in HF. destruct (HF _ Hc) as [_ ND].
    assert (Hlen : length (map fst conns)
                   <= length (map (fun l : char => [l]) (pystr "DGSBPN"))).
    { apply NoDup_incl_length; [exact ND|].
      intros term HI. apply in_map_iff in HI as ([term' node] & <- & HI).
      destruct (parse_terminal_letter _ _ _ _ _ _ Hp Hc HI) as (l & E & Hl).
      cbn [fst]. rewrite E.
      apply (in_map (fun l : char => [l])).
      now apply terminal_letter_cases. }
    now rewrite length_map in Hlen.
Qed.

(** ** Further properties of the netlist generators *)

(** *** Failures of the sort *)

Lemma name_regex_inv x g1 g2 :
  name_regex x = Some (g1, g2) ->
  g1 <> [] /\ g2 <> []
  /\ Forall (fun c => upper_AZ c = true) g1
  /\ Forall (fun c => isdecimal c = true) g2
  /\ exists rest, x = g1 ++ g2 ++ rest.
Proof.
  unfold name_regex.
  destruct (span upper_AZ x) as [letters rest] eqn:E1.
  destruct (span isdecimal rest) as [digits rest'] eqn:E2.
  apply span_eq in E1 as (-> & H1 & _). apply span_eq in E2 as (-> & H2 & _).
  destruct letters; [discriminate|]. destruct digits; [discriminate|].
  intros [= <- <-]. repeat split; try discriminate; try assumption.
  now exists rest'.
Qed.

Lemma py_int_digits g :
  g <> [] ->
  Forall (fun c => isdecimal c = true) g ->
  (int_max_str_digits <> 0%N
   /\ (int_max_str_digits < N.of_nat (length g))%N
   /\ py_int g = Raise ValueError)
  \/ ((int_max_str_digits = 0%N
       \/ (N.of_nat (length g) <= int_max_str_digits)%N)
      /\ exists n, py_int g = Ok n).
Proof.
  intros Hne HF. unfold py_int.
  destruct (N.eqb_spec int_max_str_digits 0) as [E0|E0]; simpl.
  - right. split; [now left|].
    destruct (int_digits_total g HF 0%N) as [n ->].
    destruct g; [contradiction|eauto].
  - destruct (N.ltb_spec int_max_str_digits (N.of_nat (length g))).
    + left. auto.
    + right. split; [now right|].
      destruct (int_digits_total g HF 0%N) as [n ->].
      destruct g; [contradiction|eauto].
Qed.

Lemma sort_key_cases x :
  (name_regex x = None /\ sort_key x = Raise AttributeError)
  \/ (int_max_str_digits <> 0%N /\ too_long x
      /\ sort_key x = Raise ValueError)
  \/ (~ (int_max_str_digits <> 0%N /\ too_long x)
      /\ exists k, sort_key x = Ok k).
Proof.
  unfold sort_key, too_long.
  destruct (name_regex x) as [[g1 g2]|] eqn:E; [|now left].
  right. destruct (name_regex_inv x g1 g2 E) as (_ & Hne & _ & HF & _).
  destruct (py_int_digits g2 Hne HF) as [(H0 & Hlt & ->)|[Hle [n ->]]].
  - left. split; [assumption|]. split; [|reflexivity]. now exists g1, g2.
  - right. split; [|simpl; eauto].
    intros (H0 & g1' & g2' & [= <- <-] & Hlt). destruct Hle; [contradiction|lia].
Qed.

Lemma with_keys_cases names :
  (exists ks, with_keys names = Ok ks
              /\ Forall (fun y => exists k, sort_key y = Ok k) names)
  \/ (exists e pre x post,
        with_keys names = Raise e
        /\ names = pre ++ x :: post
        /\ Forall (fun y => exists k, sort_key y = Ok k) pre
        /\ sort_key x = Raise e).
Proof.
  induction names as [|x names IH]; simpl.
  - left. eauto.
  - destruct (sort_key x) as [k|e] eqn:Ek; simpl.
    + destruct IH as [(ks & -> & HF)|(e & pre & y & post & -> & -> & HF & Hy)].
      * left. simpl. eauto.
      * right. exists e, (x :: pre), y, post. simpl. eauto 10.
    + right. exists e, [], x, names. auto.
Qed.

Lemma first_failure_unique (P : str -> Prop) pre x post pre' x' post' :
  pre ++ x :: post = pre' ++ x' :: post' ->
  Forall P pre -> ~ P x -> Forall P pre' -> ~ P x' ->
  pre = pre' /\ x = x'.
Proof.
  revert pre'. induction pre as [|a pre IH]; intros [|a' pre'] E HF Hx HF' Hx';
    simpl in E; injection E as -> E.
  - auto.
  - inversion_clear HF'. contradiction.
  - inversion_clear HF. contradiction.
  - inversion_clear HF. inversion_clear HF'.
    destruct (IH pre' E) as [-> ->]; auto.
Qed.

Lemma generate_spice_netlist_sort cs :
  generate_spice_netlist cs
  = match with_keys (dict_keys cs) with
    | Ok ks =>
        Ok (join_lines
              ([pystr "* Generated SPICE netlist"]
               ++ flat_map
                    (fun name =>
                       spice_line name (fst (defaultdict_getitem cs name)))
                    (map snd (sort_by_key ks))
               ++ [pystr ".END"]))
    | Raise e => Raise e
    end.
Proof.
  unfold generate_spice_netlist, spice_lines, sorted_comp_names.
  now destruct (with_keys (dict_keys cs)).
Qed.

Lemma netlistsvg_cells_sort cs e :
  with_keys (dict_keys cs) = Raise e -> netlistsvg_cells cs = Raise e.
Proof.
  intros H. unfold netlistsvg_cells, sorted_comp_names. now rewrite H.
Qed.

(** X7: when a generator fails, it fails on the first name, in the
    order of the map, that has no sort key, and with that name's error:
    [AttributeError] for a name that does not start with capital
    letters followed by a digit, [ValueError] for digits beyond the
    limit of [int]; it returns exactly when every name has a sort
    key. *)
Theorem X7_generators_fail_on_the_first_bad_name :
  forall cs,
    (forall e,
        generate_spice_netlist cs = Raise e
        <-> exists pre x post,
              dict_keys cs = pre ++ x :: post
              /\ Forall (fun y => exists k, sort_key y = Ok k) pre
              /\ sort_key x = Raise e)
    /\ (forall e,
          generate_spice_netlist cs = Raise e ->
          netlistsvg_cells cs = Raise e)
    /\ ((exists text, generate_spice_netlist cs = Ok text)
        <-> Forall (fun y => exists k, sort_key y = Ok k) (dict_keys cs))
    /\ (forall x,
          (sort_key x = Raise AttributeError <-> name_regex x = None)
          /\ (sort_key x = Raise ValueError
              <-> int_max_str_digits <> 0%N /\ too_long x)
          /\ sort_key x <> Raise IndexError).
Proof.
  intros cs. rewrite generate_spice_netlist_sort.
  assert (Hok : forall y k e, sort_key y = Ok k -> sort_key y = Raise e -> False)
    by (intros y k e H1 H2; congruence).
  split; [|split; [|split]].
  - intros e. split.
    + destruct (with_keys_cases (dict_keys cs))
        as [(ks & -> & _)|(e' & pre & x & post & -> & Hk & HF & Hx)];
        [discriminate|].
      intros [= <-]. now exists pre, x, post.
    + intros (pre & x & post & Hk & HF & Hx).
      destruct (with_keys_cases (dict_keys cs))
        as [(ks & _ & HF')|(e' & pre' & x' & post' & -> & Hk' & HF' & Hx')].
      * rewrite Hk in HF'. apply Forall_app in HF' as [_ HF'].
        inversion_clear HF' as [|? ? [k Hk'] _]. congruence.
      * rewrite Hk in Hk'.
        destruct (first_failure_unique
                    (fun y => exists k, sort_key y = Ok k)
                    pre x post pre' x' post' Hk' HF) as [_ <-];
          try assumption; try (intros [k Hk0]; congruence).
        congruence.
  - intros e. destruct (with_keys (dict_keys cs)) as [ks|e'] eqn:E;
      [discriminate|].
    intros [= <-]. now apply netlistsvg_cells_sort.
  - split.
    + destruct (with_keys_cases (dict_keys cs))
        as [(ks & _ & HF)|(e' & pre & x & post & -> & _)];
        [now intros _|now intros [text H]].
    + intros HF. apply with_keys_total in HF as [ks ->]. eauto.
  - intros x.
    destruct (sort_key_cases x)
      as [[Hn Hs]|[(H0 & Hl & Hs)|[Hnot [k Hs]]]]; rewrite Hs.
    + split; [split; [intros _; exact Hn|reflexivity]|].
      split; [|discriminate]. split; [discriminate|].
      intros (_ & g1 & g2 & Hg & _). congruence.
    + split.
      * split; [discriminate|].
        intros Hn. destruct Hl as (g1 & g2 & Hg & _). congruence.
      * split; [|discriminate].
        split; [intros _; now split|reflexivity].
    + split.
      * split; [discriminate|].
        intros Hn. unfold sort_key in Hs. rewrite Hn in Hs. discriminate.
      * split; [|discriminate]. split; [discriminate|].
        intros H. contradiction.
Qed.

(** X8: on a map returned by [parse_connections] the netlist generator
    either returns or raises [ValueError], and it raises exactly when
    [int] has a limit and the digits of some component are more than
    the limit. *)
Theorem X8_netlist_of_a_parsed_path :
  forall data cs,
    parse_connections data = Ok cs ->
    (generate_spice_netlist cs = Raise ValueError
     /\ int_max_str_digits <> 0%N /\ Exists too_long (dict_keys cs))
    \/ ((exists text, generate_spice_netlist cs = Ok text)
        /\ ~ (int_max_str_digits <> 0%N /\ Exists too_long (dict_keys cs))).
Proof.
  intros data cs Hp. rewrite generate_spice_netlist_sort.
  destruct (with_keys_cases (dict_keys cs))
    as [(ks & -> & HF)|(e & pre & x & post & -> & Hk & HF & Hx)].
  - right. split; [eauto|]. intros (H0 & HE).
    apply Exists_exists in HE as (x & HI & Hl).
    rewrite Forall_forall in HF. destruct (HF x HI) as [k Hk].
    destruct (sort_key_cases x)
      as [[Hn Hs]|[(_ & _ & Hs)|[Hnot _]]]; try congruence.
    apply Hnot. now split.
  - left.
    assert (HI : In x (dict_keys cs))
      by (rewrite Hk; apply in_or_app; right; now left).
    assert (Hid : comp_id x).
    { apply in_map_iff in HI as ([x' conns] & <- & HI).
      now apply (parse_key_comp_id data cs x' conns). }
    destruct Hid as (ty & num & -> & Ht & Hn & HFd).
    destruct (sort_key_cases (ty ++ num))
      as [[Hnone _]|[(H0 & Hl & Hs)|[_ [k Hs]]]].
    + rewrite name_regex_comp_id in Hnone by assumption. discriminate.
    + rewrite Hs in Hx. injection Hx as <-.
      split; [reflexivity|]. split; [assumption|].
      apply Exists_exists. now exists (ty ++ num).
    + congruence.
Qed.

(** *** The sort is stable *)

Lemma key_eqb_eq a b : key_eqb a b = true <-> a = b.
Proof.
  unfold key_eqb. destruct a as [a1 a2], b as [b1 b2]. simpl.
  rewrite andb_true_iff, str_eqb_eq, Z.eqb_eq. split.
  - now intros [-> ->].
  - now intros [= -> ->].
Qed.

Lemma key_ltb_irrefl a : key_ltb a a = false.
Proof.
  unfold key_ltb. now rewrite str_ltb_irrefl, str_eqb_refl, Z.ltb_irrefl.
Qed.

Lemma insert_by_key_filter (A : Type) k (x : (str * Z) * A) l :
  filter (fun p => key_eqb (fst p) k) (insert_by_key x l)
  = filter (fun p => key_eqb (fst p) k) (x :: l).
Proof.
  induction l as [|y l IH]; [reflexivity|]. simpl insert_by_key.
  destruct (key_ltb (fst y) (fst x)) eqn:E; [|reflexivity].
  change (filter (fun p => key_eqb (fst p) k) (y :: insert_by_key x l))
    with (if key_eqb (fst y) k
          then y :: filter (fun p => key_eqb (fst p) k) (insert_by_key x l)
          else filter (fun p => key_eqb (fst p) k) (insert_by_key x l)).
  rewrite IH. simpl.
  destruct (key_eqb (fst y) k) eqn:Ey; [|reflexivity].
  destruct (key_eqb (fst x) k) eqn:Ex; [|reflexivity].
  apply key_eqb_eq in Ey, Ex. rewrite Ey, Ex, key_ltb_irrefl in E.
  discriminate.
Qed.

Lemma sort_by_key_filter (A : Type) k (l : list ((str * Z) * A)) :
  filter (fun p => key_eqb (fst p) k) (sort_by_key l)
  = filter (fun p => key_eqb (fst p) k) l.
Proof.
  induction l as [|x l IH]; [reflexivity|]. simpl sort_by_key.
  rewrite insert_by_key_filter. simpl. now rewrite IH.
Qed.

Lemma filter_has_key k (l : list ((str * Z) * str)) :
  Forall (fun kx => sort_key (snd kx) = Ok (fst kx)) l ->
  filter (has_key k) (map snd l)
  = map snd (filter (fun p => key_eqb (fst p) k) l).
Proof.
  induction 1 as [|[k' x] l Hk _ IH]; [reflexivity|]. simpl in *.
  unfold has_key at 1. rewrite Hk, IH.
  now destruct (key_eqb k' k).
Qed.

(** X9: the sort of the names is stable: the names with one and the
    same sort key, such as NM01 and NM1, come out in the order in
    which the map has them. *)
Theorem X9_sort_is_stable :
  forall cs names k,
    sorted_comp_names cs = Ok names ->
    filter (has_key k) names = filter (has_key k) (dict_keys cs).
Proof.
  intros cs names k. unfold sorted_comp_names.
  destruct (with_keys (dict_keys cs)) as [ks|e] eqn:E; [|discriminate].
  simpl. intros [= <-]. apply with_keys_inv in E as [<- HF].
  rewrite !filter_has_key, sort_by_key_filter; [reflexivity|assumption|].
  now apply (Permutation_Forall (sort_by_key_perm _ ks)).
Qed.

(** *** The lines of the netlist *)

Ltac decide_startswith :=
  repeat match goal with
         | |- context [startswith ?a ?b] =>
             let v := eval cbv in (startswith a b) in
             change (startswith a b) with v
         end;
  cbv iota.

(** X10: the line of a component reads the terminals of the
    component's type and nothing else: two mappings that agree on
    them give the same line, so a terminal of another type, which the
    pattern lets through, never shows in the netlist. *)
Theorem X10_line_reads_the_terminals_of_the_type :
  forall name conns conns',
    comp_id name ->
    (forall term,
        legal_terminal name term = true ->
        dict_get conns term = dict_get conns' term) ->
    spice_line name conns = spice_line name conns'.
Proof.
  intros name conns conns' (ty & num & -> & Ht & Hn & HF) H.
  destruct num as [|d ds]; [contradiction|].
  inversion_clear HF as [|? ? Hd _].
  assert (Hget : forall t : string,
            dict_mem (port_directions ty) (pystr t) = true ->
            conn conns t = conn conns' t).
  { intros t Hl. unfold conn, dict_get_default. rewrite (H (pystr t)).
    - reflexivity.
    - unfold legal_terminal. now rewrite comp_type_prefix_of. }
  unfold spice_line.
  destruct Ht as [<-|[<-|[<-|[<-|[]]]]]; decide_startswith;
    repeat (rewrite (Hget "D"%string eq_refl)
            || rewrite (Hget "G"%string eq_refl)
            || rewrite (Hget "S"%string eq_refl)
            || rewrite (Hget "B"%string eq_refl)
            || rewrite (Hget "P"%string eq_refl)
            || rewrite (Hget "N"%string eq_refl));
    reflexivity.
Qed.

Lemma instance_name_field (field rest : str) :
  Forall (fun c => negb (c =? 32)%N = true) field ->
  instance_name (field ++ pystr " " ++ rest) = field.
Proof.
  intros HF. unfold instance_name.
  now rewrite (span_app (fun c => negb (c =? 32)%N) field
                 (pystr " " ++ rest) HF eq_refl).
Qed.

Lemma digits_no_space num :
  Forall (fun c => isdecimal c = true) num ->
  Forall (fun c => negb (c =? 32)%N = true) num.
Proof.
  apply Forall_impl. intros c Hc. apply isdecimal_range in Hc.
  apply negb_true_iff, N.eqb_neq. lia.
Qed.

(** X11: the first field of a component's line is M and the digits
    for a transistor of either kind, and the component's own name for
    a resistor or a capacitor: NM and PM components with the same
    digits get the same instance name. *)
Theorem X11_instance_names :
  forall num conns,
    Forall (fun c => isdecimal c = true) num ->
    (exists rest,
        spice_line (pystr "NM" ++ num) conns
        = [pystr "M" ++ num ++ pystr " " ++ rest]
        /\ instance_name (pystr "M" ++ num ++ pystr " " ++ rest)
           = pystr "M" ++ num)
    /\ (exists rest,
          spice_line (pystr "PM" ++ num) conns
          = [pystr "M" ++ num ++ pystr " " ++ rest]
          /\ instance_name (pystr "M" ++ num ++ pystr " " ++ rest)
             = pystr "M" ++ num)
    /\ (exists rest,
          spice_line (pystr "R" ++ num) conns
          = [pystr "R" ++ num ++ pystr " " ++ rest]
          /\ instance_name (pystr "R" ++ num ++ pystr " " ++ rest)
             = pystr "R" ++ num)
    /\ (exists rest,
          spice_line (pystr "C" ++ num) conns
          = [pystr "C" ++ num ++ pystr " " ++ rest]
          /\ instance_name (pystr "C" ++ num ++ pystr " " ++ rest)
             = pystr "C" ++ num).
Proof.
  intros num conns HF. apply digits_no_space in HF.
  assert (Hname : forall (l : char) rest,
            negb (l =? 32)%N = true ->
            instance_name ([l] ++ num ++ pystr " " ++ rest) = [l] ++ num).
  { intros l rest Hl. rewrite app_assoc. apply instance_name_field.
    apply Forall_app. split; [now repeat constructor|assumption]. }
  unfold spice_line.
  repeat split; decide_startswith; eexists;
    (split; [reflexivity|]); now apply Hname.
Qed.

(** *** The numbering of the nets *)

Lemma existsb_str_eqb x s : existsb (str_eqb x) s = true <-> In x s.
Proof.
  rewrite existsb_exists. split.
  - intros (y & HI & E). apply str_eqb_eq in E. now subst.
  - intros HI. exists x. split; [assumption|apply str_eqb_refl].
Qed.

Lemma In_set_add x y s : In x (set_add y s) <-> x = y \/ In x s.
Proof.
  unfold set_add. destruct (existsb (str_eqb y) s) eqn:E.
  - apply existsb_str_eqb in E. split; [now right|].
    now intros [->|H].
  - rewrite in_app_iff. simpl. split.
    + intros [H|[H|[]]]; auto.
    + intros [H|H]; auto.
Qed.

Lemma NoDup_set_add y s : NoDup s -> NoDup (set_add y s).
Proof.
  intros ND. unfold set_add. destruct (existsb (str_eqb y) s) eqn:E.
  - assumption.
  - apply NoDup_rev in ND. rewrite <- (rev_involutive (s ++ [y])).
    apply NoDup_rev. rewrite rev_app_distr. simpl.
    constructor; [|assumption]. rewrite <- in_rev. intros HI.
    apply existsb_str_eqb in HI. congruence.
Qed.

Lemma nets_of_conns (conns : pydict str) : forall nets net,
  In net (fold_left (fun nets tn => set_add (snd tn) nets) conns nets)
  <-> In net nets \/ exists term, In (term, net) conns.
Proof.
  induction conns as [|[t n] conns IH]; intros nets net; simpl.
  - split; [now left|]. now intros [H|[term []]].
  - rewrite IH, In_set_add. split.
    + intros [[->|H]|[term H]]; eauto.
    + intros [H|[term [[= -> ->]|H]]]; eauto.
Qed.

Lemma NoDup_nets_of_conns (conns : pydict str) : forall nets,
  NoDup nets ->
  NoDup (fold_left (fun nets tn => set_add (snd tn) nets) conns nets).
Proof.
  induction conns as [|[t n] conns IH]; intros nets ND; simpl.
  - assumption.
  - now apply IH, NoDup_set_add.
Qed.

Lemma nets_of_fold (cs : components) : forall nets net,
  In net
    (fold_left
       (fun nets kv =>
          fold_left (fun nets tn => set_add (snd tn) nets) (snd kv) nets)
       cs nets)
  <-> In net nets \/ is_net cs net.
Proof.
  unfold is_net.
  induction cs as [|[comp conns] cs IH]; intros nets net; simpl.
  - split; [now left|]. now intros [H|(? & ? & ? & [] & _)].
  - rewrite IH, nets_of_conns. split.
    + intros [[H|[term H]]|(c & cn & t & H1 & H2)]; eauto 10.
    + intros [H|(c & cn & t & [[= -> ->]|H1] & H2)]; eauto 10.
Qed.

Lemma In_nets_of cs net : In net (nets_of cs) <-> is_net cs net.
Proof.
  unfold nets_of. rewrite nets_of_fold. split; [now intros [[]|H]|now right].
Qed.

Lemma NoDup_nets_of cs : NoDup (nets_of cs).
Proof.
  unfold nets_of. generalize (NoDup_nil str). generalize (@nil str).
  induction cs as [|[comp conns] cs IH]; intros nets ND; simpl.
  - assumption.
  - now apply IH, NoDup_nets_of_conns.
Qed.

Lemma insert_str_perm x l : Permutation (x :: l) (insert_str x l).
Proof.
  induction l as [|y l IH]; simpl; [reflexivity|].
  destruct (str_ltb y x); [|reflexivity].
  rewrite perm_swap. now constructor.
Qed.

Lemma sorted_strs_perm l : Permutation l (sorted_strs l).
Proof.
  induction l as [|x l IH]; simpl; [reflexivity|].
  rewrite <- insert_str_perm. now constructor.
Qed.

Lemma str_le_trans a b c :
  str_ltb b a = false -> str_ltb c b = false -> str_ltb c a = false.
Proof.
  intros H1 H2. destruct (str_ltb c a) eqn:E; [|reflexivity].
  destruct (str_ltb_total a b) as [H|[->|H]]; try congruence.
  rewrite (str_ltb_trans c a b E H) in H2. discriminate.
Qed.

Lemma insert_str_sorted x l :
  StronglySorted (fun a b => str_ltb b a = false) l ->
  StronglySorted (fun a b => str_ltb b a = false) (insert_str x l).
Proof.
  induction 1 as [|y l HS IH HF]; simpl.
  - repeat constructor.
  - destruct (str_ltb y x) eqn:E.
    + constructor; [assumption|].
      apply (Permutation_Forall (insert_str_perm x l)).
      constructor; [|assumption].
      destruct (str_ltb x y) eqn:E'; [|reflexivity].
      pose proof (str_ltb_trans y x y E E') as Hyy.
      rewrite str_ltb_irrefl in Hyy. discriminate.
    + constructor; [now constructor|].
      constructor; [assumption|].
      revert HF. apply Forall_impl. intros z Hz.
      now apply (str_le_trans x y z).
Qed.

Lemma sorted_strs_sorted l :
  StronglySorted (fun a b => str_ltb b a = false) (sorted_strs l).
Proof.
  induction l as [|x l IH]; simpl; [constructor|].
  now apply insert_str_sorted.
Qed.

Lemma enumerate_from_get l : forall i x j,
  dict_get (enumerate_from i l) x = Some j ->
  In x l /\ (i <= j < i + Z.of_nat (length l))%Z.
Proof.
  induction l as [|y l IH]; intros i x j; simpl; [discriminate|].
  str_cases y x.
  - intros [= <-]. split; [now left|lia].
  - intros H. apply IH in H as [HI Hr]. split; [now right|lia].
Qed.

Lemma enumerate_from_total l : forall i x,
  In x l -> exists j, dict_get (enumerate_from i l) x = Some j.
Proof.
  induction l as [|y l IH]; intros i x; simpl; [easy|].
  str_cases y x; [eauto|].
  intros [H|H]; [contradiction|now apply IH].
Qed.

Lemma enumerate_from_inj l : forall i x y j,
  dict_get (enumerate_from i l) x = Some j ->
  dict_get (enumerate_from i l) y = Some j ->
  x = y.
Proof.
  induction l as [|z l IH]; intros i x y j; simpl; [discriminate|].
  str_cases z x; str_cases z y; try congruence.
  - intros [= <-] H. apply enumerate_from_get in H. lia.
  - intros H [= <-]. apply enumerate_from_get in H. lia.
  - apply IH.
Qed.

Lemma enumerate_from_mono l : forall i x y j k,
  StronglySorted (fun a b => str_ltb b a = false) l ->
  dict_get (enumerate_from i l) x = Some j ->
  dict_get (enumerate_from i l) y = Some k ->
  str_ltb x y = true ->
  (j < k)%Z.
Proof.
  induction l as [|z l IH]; intros i x y j k HS; simpl; [discriminate|].
  inversion_clear HS as [|? ? HS' HF].
  str_cases z x; str_cases z y.
  - subst. intros _ _ H. rewrite str_ltb_irrefl in H. discriminate.
  - intros [= <-] H _. apply enumerate_from_get in H. lia.
  - subst z. intros H _ Hlt. apply enumerate_from_get in H as [HI _].
    rewrite Forall_forall in HF. rewrite (HF x HI) in Hlt. discriminate.
  - now apply IH.
Qed.

Lemma enumerate_from_nth l : forall i n x,
  NoDup l -> nth_error l n = Some x ->
  dict_get (enumerate_from i l) x = Some (i + Z.of_nat n)%Z.
Proof.
  induction l as [|y l IH]; intros i n x ND; [now destruct n|].
  inversion_clear ND as [|? ? Hy ND'].
  destruct n as [|n]; simpl.
  - intros [= ->]. rewrite str_eqb_refl. f_equal. lia.
  - intros H. str_cases y x.
    + subst. apply nth_error_In in H. contradiction.
    + rewrite (IH (i + 1)%Z n x ND' H). f_equal. lia.
Qed.

Lemma enumerate_from_length l i : length (enumerate_from i l) = length l.
Proof. revert i. induction l as [|y l IH]; intros i; simpl; auto. Qed.

(** X12: the net numbers of [generate_netlistsvg_json]: a string has a
    number exactly when some terminal of the map is connected to it;
    the numbers run from 1 to the number of nets and each of them is
    used; two different nets never share a number; and the numbers
    follow the order of the names. *)
Theorem X12_net_numbers :
  forall cs,
    (forall net,
        is_net cs net <-> exists i, dict_get (net_map cs) net = Some i)
    /\ (forall net i,
          dict_get (net_map cs) net = Some i ->
          (1 <= i <= Z.of_nat (length (net_map cs)))%Z)
    /\ (forall i,
          (1 <= i <= Z.of_nat (length (net_map cs)))%Z ->
          exists net, dict_get (net_map cs) net = Some i)
    /\ (forall a b i,
          dict_get (net_map cs) a = Some i ->
          dict_get (net_map cs) b = Some i ->
          a = b)
    /\ (forall a b i j,
          dict_get (net_map cs) a = Some i ->
          dict_get (net_map cs) b = Some j ->
          str_ltb a b = true ->
          (i < j)%Z).
Proof.
  intros cs. unfold net_map. rewrite enumerate_from_length.
  pose proof (sorted_strs_perm (nets_of cs)) as HP.
  split; [|split; [|split; [|split]]].
  - intros net. rewrite <- In_nets_of. split.
    + intros HI. apply enumerate_from_total.
      now apply (Permutation_in _ HP).
    + intros [i H]. apply enumerate_from_get in H as [HI _].
      now apply (Permutation_in _ (Permutation_sym HP)).
  - intros net i H. apply enumerate_from_get in H. lia.
  - intros i Hi.
    destruct (nth_error (sorted_strs (nets_of cs)) (Z.to_nat (i - 1)))
      as [net|] eqn:E.
    + exists net.
      rewrite (enumerate_from_nth _ 1 _ net
                 (Permutation_NoDup HP (NoDup_nets_of cs)) E).
      f_equal. lia.
    + apply nth_error_None in E. lia.
  - intros a b i. apply enumerate_from_inj.
  - intros a b i j. apply enumerate_from_mono, sorted_strs_sorted.
Qed.

(** *** Cells and ports *)

Lemma net_map_total cs net :
  is_net cs net -> exists i, dict_get (net_map cs) net = Some i.
Proof.
  intros H. apply In_nets_of in H. apply enumerate_from_total.
  now apply (Permutation_in _ (sorted_strs_perm (nets_of cs))).
Qed.

Lemma connections_of_get (nm : pydict Z) (conns : pydict str) term :
  forall acc : pydict (list Z),
    NoDup (dict_keys conns) ->
    dict_get
      (fold_left
         (fun (connections : pydict (list Z)) (tn : str * str) =>
            match dict_get nm (snd tn) with
            | Some i => dict_set connections (fst tn) [i]
            | None => connections
            end)
         conns acc) term
    = match dict_get conns term with
      | Some net =>
          match dict_get nm net with
          | Some i => Some [i]
          | None => dict_get acc term
          end
      | None => dict_get acc term
      end.
Proof.
  induction conns as [|[t n] conns IH]; intros acc ND; simpl.
  - reflexivity.
  - inversion_clear ND as [|? ? Ht ND']. rewrite IH by assumption.
    str_cases t term.
    + subst t. apply dict_get_None in Ht. rewrite Ht.
      destruct (dict_get nm n); [|reflexivity].
      now rewrite dict_get_set, str_eqb_refl.
    + destruct (dict_get nm n) as [i|]; [|reflexivity].
      rewrite dict_get_set.
      apply str_eqb_neq in E. now rewrite E.
Qed.

Lemma cells_loop_In cs nm names : forall cells cells' comp c,
  cells_loop cs nm names cells = Ok cells' ->
  In (comp, c) cells' ->
  In (comp, c) cells \/ (In comp names /\ make_cell cs nm comp = Ok c).
Proof.
  induction names as [|x names IH]; intros cells cells' comp c; simpl.
  - intros [= <-]. now left.
  - destruct (make_cell cs nm x) as [cx|e] eqn:Ex; [|discriminate]. simpl.
    intros H HI. destruct (IH _ _ _ _ H HI) as [HI'|[HI' Hm]].
    + apply In_dict_set in HI' as [[-> ->]|HI']; auto.
    + auto.
Qed.

Lemma netlistsvg_cells_spec :
  forall cs cells,
    dict_of_dicts cs ->
    netlistsvg_cells cs = Ok cells ->
    sorted_comp_names cs = Ok (dict_keys cells)
    /\ forall comp c,
         In (comp, c) cells ->
         cell_type c
         = dict_get_default type_map (comp_type_prefix comp) (pystr "unknown")
         /\ cell_port_directions c = port_directions (comp_type_prefix comp)
         /\ forall term ids,
              dict_get (cell_connections c) term = Some ids
              <-> exists node i,
                    recorded cs comp term = Some node
                    /\ dict_get (net_map cs) node = Some i
                    /\ ids = [i].
Proof.
  intros cs cells [ND HD] Hc. unfold netlistsvg_cells in Hc.
  destruct (sorted_comp_names cs) as [names|e] eqn:Hs; [|discriminate].
  simpl in Hc.
  destruct (sorted_comp_names_spec _ _ Hs) as [HP _].
  destruct (cells_loop_keys cs (net_map cs) names []) as (cells' & Hc' & Hk).
  { apply sorted_comp_names_keyed in Hs. revert Hs.
    apply Forall_impl. intros x [k Hx]. now apply (sort_key_prefix x k). }
  { simpl. now apply (Permutation_NoDup HP). }
  rewrite Hc in Hc'. injection Hc' as <-. simpl in Hk.
  split; [now rewrite Hk|].
  intros comp c HI.
  destruct (cells_loop_In _ _ _ _ _ _ _ Hc HI) as [[]|[Hn Hm]].
  unfold make_cell in Hm.
  destruct (comp_type_prefix comp) as [|l ls] eqn:Ep; [discriminate|].
  injection Hm as <-. simpl. split; [reflexivity|]. split; [reflexivity|].
  apply (Permutation_in _ (Permutation_sym HP)) in Hn.
  apply in_map_iff in Hn as ([comp' conns] & <- & Hn). simpl.
  pose proof (In_dict_get _ _ _ _ ND Hn) as Hg.
  rewrite Forall_forall in HD. pose proof (HD _ Hn) as NDc. simpl in NDc.
  intros term ids. unfold connections_of, defaultdict_getitem, recorded.
  rewrite Hg. simpl. rewrite connections_of_get by assumption. simpl.
  destruct (dict_get conns term) as [net|] eqn:Et.
  - destruct (net_map_total cs net) as [i Hi].
    { exists comp', conns, term. split; [assumption|].
      now apply dict_get_In. }
    rewrite Hi. split.
    + intros [= <-]. now exists net, i.
    + intros (node & j & [= <-] & Hj & ->). congruence.
  - split; [discriminate|]. now intros (node & j & H & _).
Qed.

(** X13: the cells of the JSON document follow the sorted names; a
    cell's type and ports come from the leading capital letters of the
    component's name; and its connections are those of the map: a
    terminal has the one-element list of a net number exactly when the
    map connects it to the net of that number. *)
Theorem X13_cells_of_the_json :
  forall cs cells,
    dict_of_dicts cs ->
    netlistsvg_cells cs = Ok cells ->
    sorted_comp_names cs = Ok (dict_keys cells)
    /\ forall comp c,
         In (comp, c) cells ->
         cell_type c
         = dict_get_default type_map (comp_type_prefix comp) (pystr "unknown")
         /\ cell_port_directions c = port_directions (comp_type_prefix comp)
         /\ forall term ids,
              dict_get (cell_connections c) term = Some ids
              <-> exists node i,
                    recorded cs comp term = Some node
                    /\ dict_get (net_map cs) node = Some i
                    /\ ids = [i].
Proof. exact netlistsvg_cells_spec. Qed.

Lemma upper_prefix net p :
  upper net = p -> startswith (upper net) p = true.
Proof.
  intros ->. unfold startswith.
  assert (H : strip_prefix p p = Some []).
  { apply strip_prefix_Some. now rewrite app_nil_r. }
  now rewrite H.
Qed.

Lemma port_condition net :
  negb (str_eqb (direction_of net) (pystr "inout"))
  || existsb (str_eqb (upper net)) [pystr "VDD"; pystr "VSS"]
  = is_port_name net.
Proof.
  unfold direction_of, is_port_name.
  destruct (startswith (upper net) (pystr "VOUT")); [reflexivity|].
  destruct (existsb (startswith (upper net)) input_prefixes) eqn:E;
    [reflexivity|].
  assert (Hdd : str_eqb (upper net) (pystr "VDD") = false).
  { str_cases (upper net) (pystr "VDD"); [|reflexivity].
    apply upper_prefix in E0. unfold input_prefixes in E.
    cbn [existsb] in E. rewrite E0 in E. discriminate. }
  assert (Hss : str_eqb (upper net) (pystr "VSS") = false).
  { str_cases (upper net) (pystr "VSS"); [|reflexivity].
    apply upper_prefix in E0. unfold input_prefixes in E.
    cbn [existsb] in E. rewrite E0, orb_true_r in E. discriminate. }
  cbn [existsb]. now rewrite Hdd, Hss.
Qed.

Lemma ports_loop_spec nm nets : forall acc,
  (forall net, In net nets -> exists i, dict_get nm net = Some i) ->
  NoDup (dict_keys acc ++ nets) ->
  exists ports,
    ports_loop nm nets acc = Some ports
    /\ dict_keys ports = dict_keys acc ++ filter is_port_name nets
    /\ forall net p,
         In (net, p) ports ->
         In (net, p) acc
         \/ (In net nets /\ is_port_name net = true
             /\ port_direction p = direction_of net
             /\ exists i, port_bits p = [i] /\ dict_get nm net = Some i).
Proof.
  induction nets as [|x nets IH]; intros acc Hnm ND; simpl.
  - exists acc. rewrite app_nil_r. auto.
  - destruct (Hnm x (or_introl eq_refl)) as [i Hi]. rewrite Hi.
    rewrite port_condition.
    assert (Hnm' : forall net, In net nets -> exists i, dict_get nm net = Some i)
      by (intros net H; apply Hnm; now right).
    destruct (is_port_name x) eqn:Ex.
    + assert (Hk : dict_keys
                     (dict_set acc x
                        {| port_direction := direction_of x;
                           port_bits := [i] |})
                   = dict_keys acc ++ [x]).
      { rewrite dict_keys_set. unfold dict_mem.
        destruct (dict_get acc x) as [p0|] eqn:E; [|reflexivity].
        apply NoDup_remove_2 in ND. exfalso. apply ND.
        apply in_or_app. left. apply dict_get_In in E.
        apply in_map_iff. now exists (x, p0). }
      destruct (IH (dict_set acc x
                      {| port_direction := direction_of x;
                         port_bits := [i] |}) Hnm')
        as (ports & -> & Hkeys & Hin).
      { rewrite Hk, <- app_assoc. exact ND. }
      exists ports. split; [reflexivity|]. split.
      * now rewrite Hkeys, Hk, <- app_assoc.
      * intros net p HI. destruct (Hin net p HI) as [H|(H1 & H2)].
        -- apply In_dict_set in H as [[-> ->]|H]; [right|now left].
           split; [now left|]. split; [assumption|].
           split; [reflexivity|]. now exists i.
        -- right. split; [now right|assumption].
    + destruct (IH acc Hnm') as (ports & -> & Hkeys & Hin).
      { apply NoDup_remove_1 in ND. exact ND. }
      exists ports. split; [reflexivity|]. split; [assumption|].
      intros net p HI. destruct (Hin net p HI) as [H|(H1 & H2)];
        [now left|right]. split; [now right|assumption].
Qed.

(** X14: the ports of the JSON document: the loop never misses a net
    number; the ports are the nets whose name in capitals starts with
    VOUT, VDD, VSS, GND, VIN, VCLK, VB or IB, in the order of the
    names; a port is an output when that start is VOUT and an input
    otherwise, never an inout; and its bit is the number of its net. *)
Theorem X14_ports_of_the_json :
  forall cs,
    exists ports,
      netlistsvg_ports cs = Some ports
      /\ dict_keys ports = filter is_port_name (sorted_strs (nets_of cs))
      /\ forall net p,
           In (net, p) ports ->
           is_net cs net
           /\ port_direction p
              = (if startswith (upper net) (pystr "VOUT")
                 then pystr "output" else pystr "input")
           /\ exists i,
                port_bits p = [i] /\ dict_get (net_map cs) net = Some i.
Proof.
  intros cs. unfold netlistsvg_ports.
  pose proof (sorted_strs_perm (nets_of cs)) as HP.
  destruct (ports_loop_spec (net_map cs) (sorted_strs (nets_of cs)) [])
    as (ports & Hp & Hk & Hin).
  - intros net HI. apply net_map_total, In_nets_of.
    now apply (Permutation_in _ (Permutation_sym HP)).
  - simpl. apply (Permutation_NoDup HP), NoDup_nets_of.
  - exists ports. split; [assumption|]. split; [assumption|].
    intros net p HI.
    destruct (Hin net p HI) as [[]|(Hn & Hport & Hd & Hb)].
    split; [|split; [|assumption]].
    + apply In_nets_of. now apply (Permutation_in _ (Permutation_sym HP)).
    + rewrite Hd. unfold direction_of. unfold is_port_name in Hport.
      destruct (startswith (upper net) (pystr "VOUT")); [reflexivity|].
      cbn [orb] in Hport. now rewrite Hport.
Qed.

Lemma conn_recorded cs comp (t : string) :
  conn (fst (defaultdict_getitem cs comp)) t = node_or_NC cs comp t.
Proof.
  unfold conn, dict_get_default, node_or_NC, recorded, defaultdict_getitem.
  now destruct (dict_get cs comp).
Qed.

(** X16: on a map returned by [parse_connections] there is one cell
    per component, and a cell's type is the one of its type code,
    nmos, pmos, resistor or capacitor, never unknown, with the ports
    of that code. *)
Theorem X16_cells_of_a_parsed_path :
  forall data cs cells,
    parse_connections data = Ok cs ->
    netlistsvg_cells cs = Ok cells ->
    length cells = length cs
    /\ forall comp c,
         In (comp, c) cells ->
         exists ty num,
           comp = ty ++ num
           /\ In (ty, cell_type c) type_map
           /\ cell_port_directions c = port_directions ty.
Proof.
  intros data cs cells Hp Hc.
  assert (HD : dict_of_dicts cs).
  { pose proof Hp as Hp'.
    apply parse_connections_inv in Hp' as [_ [ND HF]].
    split; [assumption|]. revert HF. apply Forall_impl. now intros kv [_ H]. }
  destruct (netlistsvg_cells_spec cs cells HD Hc) as [Hs Hcells].
  destruct (sorted_comp_names_spec _ _ Hs) as [HP _].
  split.
  - rewrite <- (length_map fst cells), <- (length_map fst cs).
    symmetry. exact (Permutation_length HP).
  - intros comp c HI.
    destruct (Hcells comp c HI) as (Ht & Hd & _).
    assert (Hk : In comp (dict_keys cs)).
    { apply (Permutation_in _ (Permutation_sym HP)).
      apply in_map_iff. now exists (comp, c). }
    apply in_map_iff in Hk as ([comp' conns] & <- & Hk). simpl in *.
    destruct (parse_key_comp_id data cs comp' conns Hp Hk)
      as (ty & num & -> & Hty & Hn & HF).
    destruct num as [|d ds]; [contradiction|].
    inversion_clear HF as [|? ? Hdig _].
    rewrite comp_type_prefix_of in Ht, Hd by assumption.
    exists ty, (d :: ds). split; [reflexivity|]. split; [|assumption].
    rewrite Ht.
    destruct Hty as [<-|[<-|[<-|[<-|[]]]]]; vm_compute;
      repeat first [left; reflexivity | right].
Qed.

(** *** The order and the text of the outputs *)

Lemma join_lines_concat (lines : list str) : forall first : str,
  join_lines (first :: lines)
  = first ++ concat (map (fun l => 10%N :: l) lines).
Proof.
  induction lines as [|l lines IH]; intros first.
  - simpl. now rewrite app_nil_r.
  - change (join_lines (first :: l :: lines))
      with (first ++ 10%N :: join_lines (l :: lines)).
    now rewrite IH.
Qed.

Lemma skipn_type_code (ty num : str) : skipn (length ty) (ty ++ num) = num.
Proof. induction ty as [|c ty IH]; [reflexivity|exact IH]. Qed.

Lemma spice_line_line_of cs name :
  comp_id name ->
  spice_line name (fst (defaultdict_getitem cs name)) = [line_of cs name].
Proof.
  intros (ty & num & -> & Ht & Hn & HF).
  destruct num as [|d ds]; [contradiction|].
  inversion_clear HF as [|? ? Hd _].
  unfold line_of. rewrite comp_type_prefix_of, skipn_type_code by assumption.
  unfold spice_line.
  destruct Ht as [<-|[<-|[<-|[<-|[]]]]]; decide_startswith;
    rewrite !conn_recorded; simpl; rewrite ?app_nil_r;
    repeat (rewrite <- app_assoc; simpl); reflexivity.
Qed.

Lemma flat_map_line_of cs names :
  Forall comp_id names ->
  flat_map (fun name => spice_line name (fst (defaultdict_getitem cs name)))
    names
  = map (line_of cs) names.
Proof.
  induction 1 as [|name names Hn _ IH]; simpl; [reflexivity|].
  now rewrite spice_line_line_of, IH.
Qed.

Lemma sort_key_comp_id_value ty num k :
  In ty comp_types ->
  num <> [] ->
  Forall (fun c => isdecimal c = true) num ->
  sort_key (ty ++ num) = Ok k ->
  exists n, int_digits 0 num = Some n /\ k = (ty, Z.of_N n).
Proof.
  intros Ht Hn HF. unfold sort_key.
  rewrite name_regex_comp_id by assumption. unfold py_int.
  destruct (negb (int_max_str_digits =? 0)%N
            && (int_max_str_digits <? N.of_nat (length num))%N);
    [discriminate|].
  destruct num as [|d ds]; [contradiction|].
  destruct (int_digits 0 (d :: ds)) as [n|]; [|discriminate].
  simpl. intros [= <-]. now exists n.
Qed.

Lemma name_le_comp_le a b :
  comp_id a -> comp_id b -> name_le a b -> comp_le a b.
Proof.
  intros (ty & num & -> & Ht & Hn & HF) (ty' & num' & -> & Ht' & Hn' & HF')
         (ka & kb & Ha & Hb & Hle).
  destruct (sort_key_comp_id_value ty num ka Ht Hn HF Ha) as (n & Hd & ->).
  destruct (sort_key_comp_id_value ty' num' kb Ht' Hn' HF' Hb)
    as (n' & Hd' & ->).
  exists ty, num, n, ty', num', n'. repeat split; try assumption.
  destruct Hle as [H|[H1 H2]]; [now left|right]. simpl in *.
  split; [assumption|lia].
Qed.

Lemma StronglySorted_among (A : Type) (R R' : A -> A -> Prop) (P : A -> Prop) l :
  (forall a b, P a -> P b -> R a b -> R' a b) ->
  Forall P l -> StronglySorted R l -> StronglySorted R' l.
Proof.
  intros HR HP HS. induction HS as [|a l HS IH Hall]; [constructor|].
  inversion_clear HP as [|? ? Ha HP'].
  constructor; [now apply IH|].
  rewrite Forall_forall in *. intros b Hb.
  apply HR; [assumption|now apply HP'|now apply Hall].
Qed.

(** C7: the serialized outputs list the components by type code, then
    by the integer value of the id.  Whenever the sort of the names
    returns, its result is the keys of the map rearranged so that each
    name comes no later than all that follow it, by (capital letters,
    integer value of the digits).  On a map returned by
    [parse_connections] both generators raise [ValueError] when [int]
    has a limit and some component has more digits than that; in
    every other case the names come sorted by type code and then by the
    number their digits write, the keys of [cells] of
    [generate_netlistsvg_json] are these names in this order, the
    list [netlist] is the heading, the line of each component in this
    order, and [.END], and the text that [generate_spice_netlist]
    returns is these lines, one after the other, with a newline
    between them.  R2 comes before R10. *)
Theorem C7_components_in_sorted_order :
  (forall cs names,
      sorted_comp_names cs = Ok names ->
      Permutation (dict_keys cs) names /\ StronglySorted name_le names)
  /\ (forall data cs,
        parse_connections data = Ok cs ->
        (generate_spice_netlist cs = Raise ValueError
         /\ netlistsvg_cells cs = Raise ValueError
         /\ int_max_str_digits <> 0%N
         /\ Exists digits_beyond_limit (dict_keys cs))
        \/ (exists names cells,
              sorted_comp_names cs = Ok names
              /\ Permutation (dict_keys cs) names
              /\ StronglySorted name_le names
              /\ StronglySorted comp_le names
              /\ netlistsvg_cells cs = Ok cells
              /\ dict_keys cells = names
              /\ spice_lines cs
                 = Ok (pystr "* Generated SPICE netlist"
                       :: map (line_of cs) names ++ [pystr ".END"])
              /\ generate_spice_netlist cs
                 = Ok (netlist_text (map (line_of cs) names))))
  /\ (forall c10 c2 names,
        sorted_comp_names [(pystr "R10", c10); (pystr "R2", c2)]
        = Ok names ->
        names = [pystr "R2"; pystr "R10"]).
Proof.
  split; [|split].
  - apply sorted_comp_names_spec.
  - intros data cs Hp.
    assert (Hid : Forall comp_id (dict_keys cs)).
    { apply Forall_forall. intros k HI.
      apply in_map_iff in HI as ([k' conns] & <- & HI).
      now apply (parse_key_comp_id data cs k' conns). }
    destruct (with_keys_cases (dict_keys cs))
      as [(ks & Hks & _)|(e & pre & x & post & Hks & Hk & _ & Hx)].
    + right.
      assert (Hs : sorted_comp_names cs = Ok (map snd (sort_by_key ks)))
        by (unfold sorted_comp_names; now rewrite Hks).
      destruct (sorted_comp_names_spec _ _ Hs) as [HP HS].
      pose proof (Permutation_Forall HP Hid) as Hid'.
      destruct (cells_loop_keys cs (net_map cs) (map snd (sort_by_key ks)) [])
        as (cells & Hcl & Hck).
      { apply sorted_comp_names_keyed in Hs. revert Hs.
        apply Forall_impl. intros y [k Hy]. now apply (sort_key_prefix y k). }
      { simpl. apply (Permutation_NoDup HP).
        now apply parse_connections_inv in Hp as [_ [ND _]]. }
      exists (map snd (sort_by_key ks)), cells.
      split; [assumption|]. split; [assumption|]. split; [assumption|].
      split; [exact (StronglySorted_among _ name_le comp_le comp_id _
                       name_le_comp_le Hid' HS)|].
      split; [unfold netlistsvg_cells; now rewrite Hs|].
      split; [assumption|].
      assert (Hl : spice_lines cs
                   = Ok (pystr "* Generated SPICE netlist"
                         :: map (line_of cs) (map snd (sort_by_key ks))
                         ++ [pystr ".END"])).
      { unfold spice_lines. rewrite Hs. simpl.
        now rewrite flat_map_line_of. }
      split; [assumption|].
      unfold generate_spice_netlist. rewrite Hl. unfold bind.
      now rewrite join_lines_concat.
    + left.
      assert (HI : In x (dict_keys cs))
        by (rewrite Hk; apply in_or_app; right; now left).
      rewrite Forall_forall in Hid.
      destruct (Hid x HI) as (ty & num & -> & Ht & Hn & HF).
      destruct (sort_key_cases (ty ++ num))
        as [[Hnone _]|[(H0 & Hl & Hs)|[_ [k Hs]]]].
      * rewrite name_regex_comp_id in Hnone by assumption. discriminate.
      * rewrite Hs in Hx. injection Hx as <-.
        split; [rewrite generate_spice_netlist_sort; now rewrite Hks|].
        split; [now apply netlistsvg_cells_sort|]. split; [assumption|].
        apply Exists_exists. exists (ty ++ num). split; [assumption|].
        destruct Hl as (g1 & g2 & Hg & Hlt).
        rewrite name_regex_comp_id in Hg by assumption.
        injection Hg as <- <-. now exists ty, num.
      * congruence.
  - intros c10 c2 names. unfold sorted_comp_names. simpl.
    unfold sort_key. simpl. unfold py_int. simpl length.
    destruct (negb (int_max_str_digits =? 0)%N
              && (int_max_str_digits <? N.of_nat 2)%N); [discriminate|].
    destruct (negb (int_max_str_digits =? 0)%N
              && (int_max_str_digits <? N.of_nat 1)%N); [discriminate|].
    vm_compute. now intros [= <-].
Qed.

End Converter.

(** ** The claims at concrete inputs *)

(** C1 at the middle token of A->R1_P->B, under CPython 3.11's Unicode
    database: the left neighbour A is what the iteration records. *)
Lemma C1_left_neighbour_first :
  exists cs',
    visit unicode_14_decimal [pystr "A"; pystr "R1_P"; pystr "B"] 1
          (pystr "R1_P") [] = Ok cs'
    /\ recorded cs' (pystr "R1") (pystr "P") = Some (pystr "A").
Proof.
  exact (proj1 (proj2 (C1_first_discovery_wins unicode_14_decimal))
           [] (pystr "A") (pystr "R1_P") (pystr "B") [] []
           (pystr "R") (pystr "1") (pystr "P")
           eq_refl eq_refl eq_refl).
Defined.

(** C2 at NM1->NM1_D->NM1_G->X: only X is recorded, for G. *)
Lemma C2_only_the_external_node :
  parse_connections unicode_14_decimal (pystr "NM1->NM1_D->NM1_G->X")
  = Ok [(pystr "NM1", [(pystr "G", pystr "X")])]
  /\ pystr "X" <> pystr "NM1"
  /\ is_part_of_same_comp unicode_14_decimal (pystr "X") (pystr "NM1")
     = false.
Proof.
  assert (Hp : parse_connections unicode_14_decimal
                 (pystr "NM1->NM1_D->NM1_G->X")
               = Ok [(pystr "NM1", [(pystr "G", pystr "X")])])
    by (vm_compute; reflexivity).
  split; [exact Hp|].
  exact (proj1 (C2_same_component_neighbour_excluded unicode_14_decimal)
           _ _ (pystr "NM1") (pystr "G") (pystr "X") Hp eq_refl).
Defined.

(** C3 (amended) at VDD->NM1_D->R2_P->OUT, for the component R2. *)
Lemma C3_keys_of_a_small_path :
  parse_connections unicode_14_decimal (pystr "VDD->NM1_D->R2_P->OUT")
  = Ok [(pystr "NM1", [(pystr "D", pystr "VDD")]);
        (pystr "R2", [(pystr "P", pystr "NM1_D")])]
  /\ comp_id unicode_14_decimal (pystr "R2")
  /\ forall term node,
       In (term, node) [(pystr "P", pystr "NM1_D")] ->
       exists l, term = [l] /\ terminal_letter l = true.
Proof.
  assert (Hp : parse_connections unicode_14_decimal
                 (pystr "VDD->NM1_D->R2_P->OUT")
               = Ok [(pystr "NM1", [(pystr "D", pystr "VDD")]);
                     (pystr "R2", [(pystr "P", pystr "NM1_D")])])
    by (vm_compute; reflexivity).
  split; [exact Hp|].
  apply (C3_keys_match_the_pattern unicode_14_decimal _ _ _ _ Hp).
  simpl. tauto.
Defined.

(** C3 as stated fails: the pattern has one letter class for all
    types, so R1_D->X gives the resistor R1 a terminal D, which is no
    terminal of a resistor. *)
Lemma C3_resistor_with_a_drain :
  (forall unicode_decimal,
      parse_connections unicode_decimal (pystr "R1_D->X")
      = Ok [(pystr "R1", [(pystr "D", pystr "X")])])
  /\ dict_keys (port_directions (comp_type_prefix (pystr "R1")))
     = [pystr "P"; pystr "N"]
  /\ legal_terminal (pystr "R1") (pystr "D") = false.
Proof.
  split; [intros unicode_decimal|split]; vm_compute; reflexivity.
Defined.

(** C4 (amended) at R1_Z. *)
Lemma C4_R1_Z_is_a_node_name :
  terminal_regex unicode_14_decimal (pystr "R1_Z") = None
  /\ forall path i cs,
       visit unicode_14_decimal path i (pystr "R1_Z") cs = Ok cs.
Proof.
  assert (Ht : In (pystr "R") comp_types) by (simpl; tauto).
  assert (Hn : pystr "1" <> []) by discriminate.
  assert (HF : Forall (fun c => isdecimal unicode_14_decimal c = true)
                 (pystr "1")) by (repeat constructor).
  assert (Hz : terminal_letter 90%N = false) by reflexivity.
  destruct (proj1 (C4_unknown_letter_is_a_node_name unicode_14_decimal)
              (pystr "R") (pystr "1") 90%N Ht Hn HF Hz)
    as (H1 & H2 & _).
  split; [exact H1|exact H2].
Defined.

(** C4 as stated fails: G is no terminal of a capacitor, and yet C7_G
    is a terminal match and gives C7 a terminal. *)
Lemma C4_capacitor_with_a_gate :
  (forall unicode_decimal,
      terminal_regex unicode_decimal (pystr "C7_G")
      = Some (pystr "C", pystr "7", pystr "G"))
  /\ legal_terminal (pystr "C7") (pystr "G") = false
  /\ (forall unicode_decimal,
        parse_connections unicode_decimal (pystr "C7_G->OUT")
        = Ok [(pystr "C7", [(pystr "G", pystr "OUT")])]).
Proof.
  split; [intros unicode_decimal|split; [|intros unicode_decimal]];
    vm_compute; reflexivity.
Defined.

(** C5 at a path of node names only and at a single terminal token. *)
Lemma C5_degenerate_paths :
  parse_connections unicode_14_decimal (pystr "VDD->GND") = Ok []
  /\ parse_connections unicode_14_decimal (pystr "NM1_D") = Ok [].
Proof.
  split.
  - apply (proj1 (proj2 (proj2 (C5_never_raises unicode_14_decimal)))).
    repeat constructor.
  - apply (proj2 (proj2 (proj2 (C5_never_raises unicode_14_decimal)))
             (pystr "NM1_D") (pystr "NM1_D")).
    reflexivity.
Defined.


(** C7 at a path with six components, under the default limit: the
    sorted names and the text of the netlist. *)
Lemma C7_six_components :
  let cs :=
    [(pystr "R10", [(pystr "P", pystr "X")]);
     (pystr "R2", [(pystr "P", pystr "Y")]);
     (pystr "NM01", [(pystr "D", pystr "Z")]);
     (pystr "NM1", [(pystr "D", pystr "W")]);
     (pystr "C3", [(pystr "N", pystr "V")]);
     (pystr "PM7", [(pystr "G", pystr "U")])] in
  parse_connections unicode_14_decimal
    (pystr "X->R10_P->Y->R2_P->Z->NM01_D->W->NM1_D->V->C3_N->U->PM7_G->T")
  = Ok cs
  /\ sorted_comp_names unicode_14_decimal default_max_str_digits cs
     = Ok [pystr "C3"; pystr "NM01"; pystr "NM1"; pystr "PM7";
           pystr "R2"; pystr "R10"]
  /\ generate_spice_netlist unicode_14_decimal default_max_str_digits cs
     = Ok (pystr "* Generated SPICE netlist" ++ [10%N]
           ++ pystr "C3 NC V 1p" ++ [10%N]
           ++ pystr "M01 Z NC NC NC nmos_model" ++ [10%N]
           ++ pystr "M1 W NC NC NC nmos_model" ++ [10%N]
           ++ pystr "M7 NC U NC NC pmos_model" ++ [10%N]
           ++ pystr "R2 Y NC 1k" ++ [10%N]
           ++ pystr "R10 X NC 1k" ++ [10%N]
           ++ pystr ".END").
Proof.
  intros cs.
  assert (Hp : parse_connections unicode_14_decimal
                 (pystr
                    "X->R10_P->Y->R2_P->Z->NM01_D->W->NM1_D->V->C3_N->U->PM7_G->T")
               = Ok cs) by (vm_compute; reflexivity).
  split; [exact Hp|].
  destruct (proj1 (proj2 (C7_components_in_sorted_order
                            unicode_14_decimal default_max_str_digits))
              _ cs Hp)
    as [(Hraise & _)
       |(names & cells & Hs & _ & _ & _ & _ & _ & _ & Htext)].
  - vm_compute in Hraise. discriminate.
  - assert (Hn : names = [pystr "C3"; pystr "NM01"; pystr "NM1"; pystr "PM7";
                          pystr "R2"; pystr "R10"]).
    { vm_compute in Hs. injection Hs as <-. vm_compute. reflexivity. }
    subst names. split; [vm_compute; reflexivity|].
    rewrite Htext. vm_compute. reflexivity.
Defined.

(** C8 at VDD->NM1_D. *)
Lemma C8_NM1_has_a_terminal :
  parse_connections unicode_14_decimal (pystr "VDD->NM1_D")
  = Ok [(pystr "NM1", [(pystr "D", pystr "VDD")])]
  /\ [(pystr "D", pystr "VDD")] <> [].
Proof.
  assert (Hp : parse_connections unicode_14_decimal (pystr "VDD->NM1_D")
               = Ok [(pystr "NM1", [(pystr "D", pystr "VDD")])])
    by (vm_compute; reflexivity).
  split; [exact Hp|].
  apply (proj1 (C8_no_empty_component unicode_14_decimal)
           _ _ (pystr "NM1") _ Hp).
  simpl. tauto.
Defined.

(** C9 at the component NM1 and its terminal token NM1_D. *)
Lemma C9_empty_token_next_to_NM1_D :
  external unicode_14_decimal [] (pystr "NM1") = true
  /\ parse_path unicode_14_decimal [[]; pystr "NM1_D"]
     = Ok [(pystr "NM1", [(pystr "D", [])])].
Proof.
  destruct (C9_empty_node_name unicode_14_decimal)
    as (_ & _ & _ & _ & Hx & Hp).
  split.
  - apply Hx. exists (pystr "NM"), (pystr "1").
    split; [reflexivity|]. split; [simpl; tauto|].
    split; [discriminate|repeat constructor].
  - exact (proj1 (Hp (pystr "NM1_D") (pystr "NM") (pystr "1") (pystr "D")
                     eq_refl)).
Defined.

(** C10 at X->NM01_D->Y->NM1_G->Z. *)
Lemma C10_NM01_and_NM1 :
  exists cs,
    parse_connections unicode_14_decimal (pystr "X->NM01_D->Y->NM1_G->Z")
    = Ok cs
    /\ In (pystr "NM01") (dict_keys cs)
    /\ In (pystr "NM1") (dict_keys cs)
    /\ recorded cs (pystr "NM01") (pystr "D") <> None
    /\ recorded cs (pystr "NM1") (pystr "G") <> None.
Proof.
  apply (proj1 (proj2 (C10_leading_zeros_make_distinct_components
                         unicode_14_decimal))
           (pystr "X->NM01_D->Y->NM1_G->Z") (pystr "X") (pystr "Y")).
  - exists [], [pystr "Y"; pystr "NM1_G"; pystr "Z"]. right. reflexivity.
  - reflexivity.
  - exists [pystr "X"; pystr "NM01_D"], [pystr "Z"]. right. reflexivity.
  - reflexivity.
Defined.

(** ** The further properties at concrete inputs *)

Ltac nodup_strs :=
  repeat (constructor; [simpl; intuition discriminate|]); constructor.

(** X1 at the path A->R1_P->B between two spaces and a newline. *)
Lemma X1_spaces_and_newline :
  parse_connections unicode_14_decimal
    (pystr "  " ++ pystr "A->R1_P->B" ++ [10%N])
  = parse_connections unicode_14_decimal (pystr "A->R1_P->B").
Proof.
  apply (X1_outer_whitespace_ignored unicode_14_decimal);
    repeat constructor.
Defined.

(** X3 at VDD->NM1_D->NM1_G->X, for the terminal G of NM1. *)
Lemma X3_gate_of_NM1 :
  parse_connections unicode_14_decimal (pystr "VDD->NM1_D->NM1_G->X")
  = Ok [(pystr "NM1", [(pystr "D", pystr "VDD"); (pystr "G", pystr "X")])]
  /\ exists tok ty num,
       adjacent (split_arrow (strip (pystr "VDD->NM1_D->NM1_G->X")))
         tok (pystr "X")
       /\ terminal_regex unicode_14_decimal tok = Some (ty, num, pystr "G")
       /\ pystr "NM1" = ty ++ num
       /\ external unicode_14_decimal (pystr "X") (pystr "NM1") = true.
Proof.
  assert (Hp : parse_connections unicode_14_decimal
                 (pystr "VDD->NM1_D->NM1_G->X")
               = Ok [(pystr "NM1", [(pystr "D", pystr "VDD");
                                    (pystr "G", pystr "X")])])
    by (vm_compute; reflexivity).
  split; [exact Hp|].
  exact (proj1 (X3_connections_are_adjacencies unicode_14_decimal
                  _ _ (pystr "NM1") (pystr "G") Hp)
           (pystr "X") eq_refl).
Defined.

(** X4 at the terminal tokens NM1_D and R2_P, in the path
    VDD->NM1_D->R2_P->OUT and alone. *)
Lemma X4_NM1_D_next_to_R2_P :
  (recorded [(pystr "NM1", [(pystr "D", pystr "VDD")]);
             (pystr "R2", [(pystr "P", pystr "NM1_D")])]
     (pystr "NM1") (pystr "D") <> None
   /\ recorded [(pystr "NM1", [(pystr "D", pystr "VDD")]);
                (pystr "R2", [(pystr "P", pystr "NM1_D")])]
        (pystr "R2") (pystr "P") <> None)
  /\ parse_path unicode_14_decimal [pystr "NM1_D"; pystr "R2_P"]
     = Ok [(pystr "NM1", [(pystr "D", pystr "R2_P")]);
           (pystr "R2", [(pystr "P", pystr "NM1_D")])].
Proof.
  destruct (X4_adjacent_terminal_tokens unicode_14_decimal
              (pystr "NM1_D") (pystr "R2_P")
              (pystr "NM") (pystr "1") (pystr "D")
              (pystr "R") (pystr "2") (pystr "P") eq_refl eq_refl)
    as (_ & Hboth & Hpair).
  split; [|exact Hpair].
  apply (Hboth ltac:(discriminate) (pystr "VDD->NM1_D->R2_P->OUT")).
  - vm_compute. reflexivity.
  - exists [pystr "VDD"], [pystr "OUT"]. now left.
Defined.

(** X5 at the path A, R1_P with B, NM2_G after it. *)
Lemma X5_two_more_tokens :
  incl [pystr "R1"] [pystr "R1"; pystr "NM2"]
  /\ forall comp term node,
       recorded [(pystr "R1", [(pystr "P", pystr "A")])] comp term
       = Some node ->
       recorded [(pystr "R1", [(pystr "P", pystr "A")]);
                 (pystr "NM2", [(pystr "G", pystr "B")])] comp term
       = Some node.
Proof.
  assert (H1 : parse_path unicode_14_decimal [pystr "A"; pystr "R1_P"]
               = Ok [(pystr "R1", [(pystr "P", pystr "A")])])
    by (vm_compute; reflexivity).
  assert (H2 : parse_path unicode_14_decimal
                 ([pystr "A"; pystr "R1_P"] ++ [pystr "B"; pystr "NM2_G"])
               = Ok [(pystr "R1", [(pystr "P", pystr "A")]);
                     (pystr "NM2", [(pystr "G", pystr "B")])])
    by (vm_compute; reflexivity).
  destruct (X5_more_tokens_keep_connections unicode_14_decimal
              _ _ _ _ H1 H2) as [Hr Hk].
  split; [exact Hk|exact Hr].
Defined.

(** X6 at VDD->NM1_D->NM1_G->X: one component for two terminal
    tokens. *)
Lemma X6_one_component_two_tokens :
  length [(pystr "NM1", [(pystr "D", pystr "VDD"); (pystr "G", pystr "X")])]
  <= length (filter (is_terminal_token unicode_14_decimal)
               (split_arrow (strip (pystr "VDD->NM1_D->NM1_G->X"))))
  /\ length [(pystr "D", pystr "VDD"); (pystr "G", pystr "X")] <= 6.
Proof.
  assert (Hp : parse_connections unicode_14_decimal
                 (pystr "VDD->NM1_D->NM1_G->X")
               = Ok [(pystr "NM1", [(pystr "D", pystr "VDD");
                                    (pystr "G", pystr "X")])])
    by (vm_compute; reflexivity).
  destruct (X6_sizes unicode_14_decimal _ _ Hp) as [H1 H2].
  split; [exact H1|]. apply (H2 (pystr "NM1")). now left.
Defined.

(** X8 at X->R10_P->Y, under the default limit: the generator
    returns. *)
Lemma X8_short_digits :
  exists text,
    generate_spice_netlist unicode_14_decimal default_max_str_digits
      [(pystr "R10", [(pystr "P", pystr "X")])]
    = Ok text.
Proof.
  assert (Hp : parse_connections unicode_14_decimal (pystr "X->R10_P->Y")
               = Ok [(pystr "R10", [(pystr "P", pystr "X")])])
    by (vm_compute; reflexivity).
  destruct (X8_netlist_of_a_parsed_path unicode_14_decimal
              default_max_str_digits _ _ Hp) as [[H _]|[H _]].
  - vm_compute in H. discriminate.
  - exact H.
Defined.

(** X9 at the components NM01 and NM1, whose sort key is (NM, 1). *)
Lemma X9_NM01_before_NM1 :
  filter (has_key unicode_14_decimal default_max_str_digits (pystr "NM", 1%Z))
    [pystr "NM01"; pystr "NM1"]
  = filter (has_key unicode_14_decimal default_max_str_digits (pystr "NM", 1%Z))
      (dict_keys [(pystr "NM01", [(pystr "D", pystr "X")]);
                  (pystr "NM1", [(pystr "G", pystr "Y")])]).
Proof.
  apply (X9_sort_is_stable unicode_14_decimal default_max_str_digits).
  vm_compute. reflexivity.
Defined.

(** X10 at the resistor R1 with a terminal D, and without it. *)
Lemma X10_drain_of_a_resistor_dropped :
  spice_line (pystr "R1") [(pystr "D", pystr "X")]
  = spice_line (pystr "R1") [].
Proof.
  apply (X10_line_reads_the_terminals_of_the_type unicode_14_decimal).
  - exists (pystr "R"), (pystr "1").
    split; [reflexivity|]. split; [simpl; tauto|].
    split; [discriminate|repeat constructor].
  - intros term Hl.
    change (dict_get [(pystr "D", pystr "X")] term)
      with (if str_eqb (pystr "D") term then Some (pystr "X") else None).
    destruct (str_eqb (pystr "D") term) eqn:E; [|reflexivity].
    apply str_eqb_eq in E. subst term. vm_compute in Hl. discriminate.
Defined.

(** X11 at the digits 1. *)
Lemma X11_M1_twice :
  (exists rest,
      spice_line (pystr "NM1") [] = [pystr "M1 " ++ rest])
  /\ (exists rest,
        spice_line (pystr "PM1") [] = [pystr "M1 " ++ rest]).
Proof.
  assert (HF : Forall (fun c => isdecimal unicode_14_decimal c = true)
                 (pystr "1")) by (repeat constructor).
  destruct (X11_instance_names unicode_14_decimal (pystr "1") [] HF)
    as ((r1 & H1 & _) & (r2 & H2 & _) & _).
  split; [exists r1; exact H1|exists r2; exact H2].
Defined.

(** X13 at the map of X->R10_P->Y->NM1_D->X. *)
Lemma X13_two_cells :
  exists cells,
    netlistsvg_cells unicode_14_decimal default_max_str_digits
      [(pystr "R10", [(pystr "P", pystr "X")]);
       (pystr "NM1", [(pystr "D", pystr "Y")])]
    = Ok cells
    /\ sorted_comp_names unicode_14_decimal default_max_str_digits
         [(pystr "R10", [(pystr "P", pystr "X")]);
          (pystr "NM1", [(pystr "D", pystr "Y")])]
       = Ok (dict_keys cells).
Proof.
  destruct (netlistsvg_cells unicode_14_decimal default_max_str_digits
              [(pystr "R10", [(pystr "P", pystr "X")]);
               (pystr "NM1", [(pystr "D", pystr "Y")])])
    as [cells|e] eqn:Hc; [|vm_compute in Hc; discriminate].
  exists cells. split; [reflexivity|].
  apply (X13_cells_of_the_json unicode_14_decimal default_max_str_digits
           _ _ ) in Hc; [exact (proj1 Hc)|].
  split; [nodup_strs|]. repeat constructor; simpl; intuition discriminate.
Defined.

(** X16 at the path X->R10_P->Y->NM1_D->X. *)
Lemma X16_two_typed_cells :
  exists cells,
    netlistsvg_cells unicode_14_decimal default_max_str_digits
      [(pystr "R10", [(pystr "P", pystr "X")]);
       (pystr "NM1", [(pystr "D", pystr "Y")])]
    = Ok cells
    /\ length cells = 2.
Proof.
  assert (Hp : parse_connections unicode_14_decimal
                 (pystr "X->R10_P->Y->NM1_D->X")
               = Ok [(pystr "R10", [(pystr "P", pystr "X")]);
                     (pystr "NM1", [(pystr "D", pystr "Y")])])
    by (vm_compute; reflexivity).
  destruct (netlistsvg_cells unicode_14_decimal default_max_str_digits
              [(pystr "R10", [(pystr "P", pystr "X")]);
               (pystr "NM1", [(pystr "D", pystr "Y")])])
    as [cells|e] eqn:Hc; [|vm_compute in Hc; discriminate].
  exists cells. split; [reflexivity|].
  exact (proj1 (X16_cells_of_a_parsed_path unicode_14_decimal
                  default_max_str_digits _ _ _ Hp Hc)).
Defined.
